(** * Task status records (include/swift/ABI/TaskStatus.h)

    A shallow embedding of the status-record classes of the Swift
    concurrency runtime and the properties of their operations.

    Pointers are optional addresses ([None] is [nullptr]); the task objects
    that the intrusive child lists run through live in a finite heap from
    addresses to tasks.  A member function is a function of the object it is
    called on (and of the heap when it follows a task pointer) that returns
    an [outcome]: a normal return, a failed [assert], a dereference of a null
    or dangling pointer, or a loop that did not finish within its budget of
    iterations. *)

From stdpp Require Import base option list gmap fin_maps.

#[local] Set Warnings "-clear-no-such-hyp,-level-tolerance".

Abbreviation addr := positive.
Abbreviation ptr := (option positive).

(** ** Outcomes *)

Inductive outcome (A : Type) : Type :=
  | Done (a : A)
  | AssertionFailure
  | Undefined
  | OutOfFuel.
Arguments Done {A} a.
Arguments AssertionFailure {A}.
Arguments Undefined {A}.
Arguments OutOfFuel {A}.

#[global] Instance outcome_ret : MRet outcome := λ A a, Done a.
#[global] Instance outcome_bind : MBind outcome := λ A B f m,
  match m with
  | Done a => f a
  | AssertionFailure => AssertionFailure
  | Undefined => Undefined
  | OutOfFuel => OutOfFuel
  end.

(** [assert(b)] with assertions compiled in. *)
Definition assert (b : bool) : outcome unit :=
  if b then Done () else AssertionFailure.

(** ** External declarations *)

(** Modelled from the spec: [TaskStatusRecordKind] is declared in
    swift/ABI/MetadataValues.h.  These are the six kinds this header names,
    one for each record class of the spec (section 2). *)
Module TaskStatusRecordKind.
Inductive t : Set :=
  | Deadline
  | ChildTask
  | TaskGroup
  | CancellationNotification
  | EscalationNotification
  | TaskDependency.

#[global] Instance eq_dec : EqDecision t.
Proof. solve_decision. Defined.
End TaskStatusRecordKind.

(** Modelled from the spec: [TaskStatusRecordFlags] is declared in
    swift/ABI/MetadataValues.h.  The header only builds it from a kind and
    reads the kind back (spec 4.1: "kind() returns the variant tag fixed at
    construction"). *)
Module TaskStatusRecordFlags.
Record t : Set := mk { getKind : TaskStatusRecordKind.t }.
End TaskStatusRecordFlags.

(** Modelled from the spec: [JobPriority] is declared outside this header;
    the spec treats it as an opaque totally ordered value. *)
Definition JobPriority : Set := N.

(** Modelled from the spec: [AsyncTask] is declared in swift/ABI/Task.h.
    Of a task this header uses the successor slot of its child fragment
    ([childFragment()->getNextChild()] and [setNextChild]) and the group
    membership marker: [GroupChildFragment = Some g] when
    [hasGroupChildFragment()] holds and [groupChildFragment()->getGroup()]
    is the group at address [g]. *)
Module AsyncTask.
Record t : Set := mk { NextChild : ptr; GroupChildFragment : ptr }.

Definition hasGroupChildFragment (task : t) : bool :=
  bool_decide (is_Some (GroupChildFragment task)).
Definition getNextChild (task : t) : ptr := NextChild task.
Definition setNextChild (next : ptr) (task : t) : t :=
  mk next (GroupChildFragment task).
End AsyncTask.

Abbreviation heap := (gmap positive AsyncTask.t).

(** [p->...]: reading through a task pointer. *)
Definition deref (h : heap) (p : ptr) : outcome AsyncTask.t :=
  match p with
  | None => Undefined
  | Some a => match h !! a with Some task => Done task | None => Undefined end
  end.

(** [p->childFragment()->setNextChild(next)]. *)
Definition setNextChild (h : heap) (p : ptr) (next : ptr) : outcome heap :=
  match p with
  | None => Undefined
  | Some a =>
      match h !! a with
      | Some task => Done (<[a := AsyncTask.setNextChild next task]> h)
      | None => Undefined
      end
  end.

(** The calls this header makes into the rest of the runtime, in the order
    they are made.  [swift_release] is not called in this header; it stands
    for the release that the removal of a dependency record performs. *)
Inductive Event : Set :=
  | swift_retain (object : ptr)
  | swift_release (object : ptr)
  | swift_task_escalate (task : ptr) (newPriority : JobPriority)
  | swift_actor_escalate (actor : ptr) (task : ptr) (newPriority : JobPriority)
  | call_cancellation_function (fn : ptr) (arg : ptr)
  | call_escalation_function (fn : ptr) (arg : ptr) (newPriority : JobPriority).

#[global] Instance Event_eq_dec : EqDecision Event.
Proof. unfold JobPriority. solve_decision. Defined.

(** ** class TaskStatusRecord *)

Module TaskStatusRecord.
Record t : Set := mk { Flags : TaskStatusRecordFlags.t; Parent : ptr }.

Definition getKind (r : t) : TaskStatusRecordKind.t :=
  TaskStatusRecordFlags.getKind (Flags r).
Definition getParent (r : t) : ptr := Parent r.

Definition resetParent (newParent : ptr) (r : t) : t :=
  mk (Flags r) newParent.
Definition spliceParent (newParent : ptr) (r : t) : t :=
  mk (Flags r) newParent.

(** [TaskStatusRecord(kind, parent = nullptr)]: [Flags(kind)], then
    [resetParent(parent)] on the still unset parent link. *)
Definition ctor (kind : TaskStatusRecordKind.t) (parent : ptr) : t :=
  resetParent parent (mk (TaskStatusRecordFlags.mk kind) None).
End TaskStatusRecord.

(** ** struct TaskDeadline, class DeadlineStatusRecord *)

Module TaskDeadline.
Record t : Set := mk { Value : N }.
Definition eqb (a b : t) : bool := bool_decide (Value a = Value b).
Definition ltb (a b : t) : bool := bool_decide (Value a < Value b)%N.
End TaskDeadline.

Module DeadlineStatusRecord.
Record t : Set := mk { base : TaskStatusRecord.t; Deadline : TaskDeadline.t }.
Definition ctor (deadline : TaskDeadline.t) : t :=
  mk (TaskStatusRecord.ctor TaskStatusRecordKind.Deadline None) deadline.
Definition getDeadline (r : t) : TaskDeadline.t := Deadline r.
Definition classof (record : TaskStatusRecord.t) : bool :=
  bool_decide (TaskStatusRecord.getKind record = TaskStatusRecordKind.Deadline).
End DeadlineStatusRecord.

(** Modelled from the spec: [LinkedListIterator<AsyncTask, getNext>] is
    declared outside this header.  [rangeBeginning(first)] is the forward
    sequence that starts at [first] and follows [getNext] until it reaches
    null (spec 4.3).  Each element consumes one unit of the budget. *)
Fixpoint rangeBeginning (getNext : heap → ptr → outcome ptr)
    (fuel : nat) (h : heap) (first : ptr) : outcome (list addr) :=
  match first with
  | None => Done []
  | Some a =>
      match fuel with
      | O => OutOfFuel
      | S fuel' =>
          next ← getNext h first;
          rest ← rangeBeginning getNext fuel' h next;
          Done (a :: rest)
      end
  end.

(** ** class ChildTaskStatusRecord *)

Module ChildTaskStatusRecord.
Record t : Set := mk { base : TaskStatusRecord.t; FirstChild : ptr }.

(** [ChildTaskStatusRecord(AsyncTask *child)]. *)
Definition ctor (h : heap) (child : ptr) : outcome t :=
  Done (mk (TaskStatusRecord.ctor TaskStatusRecordKind.ChildTask None) child).

(** [ChildTaskStatusRecord(AsyncTask *child, TaskStatusRecordKind kind)]. *)
Definition ctor_kind (h : heap) (child : ptr) (kind : TaskStatusRecordKind.t)
    : outcome t :=
  let this := mk (TaskStatusRecord.ctor kind None) child in
  assert (bool_decide (kind = TaskStatusRecordKind.ChildTask));;
  c ← deref h child;
  assert (negb (AsyncTask.hasGroupChildFragment c));;
  Done this.

Definition getFirstChild (r : t) : ptr := FirstChild r.

Definition getNextChildTask (h : heap) (task : ptr) : outcome ptr :=
  c ← deref h task; Done (AsyncTask.getNextChild c).

Definition children (fuel : nat) (r : t) (h : heap) : outcome (list addr) :=
  rangeBeginning getNextChildTask fuel h (getFirstChild r).

Definition classof (record : TaskStatusRecord.t) : bool :=
  bool_decide (TaskStatusRecord.getKind record = TaskStatusRecordKind.ChildTask).
End ChildTaskStatusRecord.

(** ** class TaskGroupTaskStatusRecord *)

Module TaskGroupTaskStatusRecord.
Record t : Set :=
  mk { base : TaskStatusRecord.t; FirstChild : ptr; LastChild : ptr }.

Definition setFirstChild (p : ptr) (r : t) : t := mk (base r) p (LastChild r).
Definition setLastChild (p : ptr) (r : t) : t := mk (base r) (FirstChild r) p.

Definition getNextChildTask (h : heap) (task : ptr) : outcome ptr :=
  c ← deref h task; Done (AsyncTask.getNextChild c).

(** [TaskGroupTaskStatusRecord()]. *)
Definition ctor : t :=
  mk (TaskStatusRecord.ctor TaskStatusRecordKind.TaskGroup None) None None.

(** [TaskGroupTaskStatusRecord(AsyncTask *child)]. *)
Definition ctor_child (h : heap) (child : ptr) : outcome t :=
  let this :=
    mk (TaskStatusRecord.ctor TaskStatusRecordKind.TaskGroup None) child child in
  match LastChild this with
  | None => Done this
  | Some _ =>
      next ← getNextChildTask h (LastChild this);
      assert (bool_decide (next = None));;
      Done this
  end.

(** [getGroup()] reinterprets the address of the record itself. *)
Definition getGroup (this : addr) : ptr := Some this.

Definition getFirstChild (r : t) : ptr := FirstChild r.

(** [attachChild(child)] on the record at address [this]. *)
Definition attachChild (this : addr) (child : ptr) (r : t) (h : heap)
    : outcome (t * heap) :=
  c ← deref h child;
  assert (AsyncTask.hasGroupChildFragment c);;
  assert (bool_decide (AsyncTask.GroupChildFragment c = getGroup this));;
  let oldLastChild := LastChild r in
  let r := setLastChild child r in
  match FirstChild r with
  | None => Done (setFirstChild child r, h)
  | Some _ =>
      h' ← setNextChild h oldLastChild child;
      Done (r, h')
  end.

(** The [while (prev)] loop of [detachChild]; every iteration consumes one
    unit of the budget. *)
Fixpoint detachChild_scan (fuel : nat) (child : ptr) (prev : ptr)
    (r : t) (h : heap) : outcome (t * heap) :=
  match prev with
  | None => Done (r, h)
  | Some _ =>
      match fuel with
      | O => OutOfFuel
      | S fuel' =>
          afterPrev ← getNextChildTask h prev;
          if decide (afterPrev = child) then
            afterChild ← getNextChildTask h child;
            h' ← setNextChild h prev afterChild;
            Done (if decide (child = LastChild r)
                  then setLastChild prev r else r, h')
          else detachChild_scan fuel' child afterPrev r h
      end
  end.

(** [detachChild(child)]. *)
Definition detachChild (fuel : nat) (child : ptr) (r : t) (h : heap)
    : outcome (t * heap) :=
  assert (bool_decide (child ≠ None));;
  if decide (FirstChild r = child) then
    next ← getNextChildTask h child;
    let r := setFirstChild next r in
    Done (if decide (FirstChild r = None) then setLastChild None r else r, h)
  else detachChild_scan fuel child (FirstChild r) r h.

Definition children (fuel : nat) (r : t) (h : heap) : outcome (list addr) :=
  rangeBeginning getNextChildTask fuel h (getFirstChild r).

Definition classof (record : TaskStatusRecord.t) : bool :=
  bool_decide (TaskStatusRecord.getKind record = TaskStatusRecordKind.TaskGroup).
End TaskGroupTaskStatusRecord.

(** ** The notification records *)

Module CancellationNotificationStatusRecord.
Record t : Set :=
  mk { base : TaskStatusRecord.t; Function : ptr; Argument : ptr }.
Definition ctor (fn arg : ptr) : t :=
  mk (TaskStatusRecord.ctor TaskStatusRecordKind.CancellationNotification None)
     fn arg.
Definition run (r : t) : list Event :=
  [call_cancellation_function (Function r) (Argument r)].
Definition classof (record : TaskStatusRecord.t) : bool :=
  bool_decide (TaskStatusRecord.getKind record
               = TaskStatusRecordKind.CancellationNotification).
End CancellationNotificationStatusRecord.

Module EscalationNotificationStatusRecord.
Record t : Set :=
  mk { base : TaskStatusRecord.t; Function : ptr; Argument : ptr }.
Definition ctor (fn arg : ptr) : t :=
  mk (TaskStatusRecord.ctor TaskStatusRecordKind.EscalationNotification None)
     fn arg.
Definition run (newPriority : JobPriority) (r : t) : list Event :=
  [call_escalation_function (Function r) (Argument r) newPriority].
Definition classof (record : TaskStatusRecord.t) : bool :=
  bool_decide (TaskStatusRecord.getKind record
               = TaskStatusRecordKind.EscalationNotification).
End EscalationNotificationStatusRecord.

(** ** class TaskDependencyStatusRecord *)

Module TaskDependencyStatusRecord.
Inductive DependencyKind_t : Set :=
  | WaitingOnContinuation
  | WaitingOnTask
  | WaitingOnTaskGroup
  | WaitingOnActor.

(** The union [WaitingOn] is one word of storage: whichever member is
    written or read, it is the same pointer. *)
Record t : Set :=
  mk { base : TaskStatusRecord.t;
       DependencyKind : DependencyKind_t;
       WaitingOn : ptr }.

(** A constructor returns the record together with the runtime calls it
    made. *)
Definition ctor_continuation (continuation : ptr) : t * list Event :=
  (mk (TaskStatusRecord.ctor TaskStatusRecordKind.TaskDependency None)
      WaitingOnContinuation continuation, []).

Definition ctor_task (task : ptr) : t * list Event :=
  (mk (TaskStatusRecord.ctor TaskStatusRecordKind.TaskDependency None)
      WaitingOnTask task, [swift_retain task]).

Definition ctor_taskGroup (taskGroup : ptr) : t * list Event :=
  (mk (TaskStatusRecord.ctor TaskStatusRecordKind.TaskDependency None)
      WaitingOnTaskGroup taskGroup, []).

Definition ctor_actor (actor : ptr) : t * list Event :=
  (mk (TaskStatusRecord.ctor TaskStatusRecordKind.TaskDependency None)
      WaitingOnActor actor, []).

(** [performEscalationAction(newPriority)].  The identifier [task] that
    the waiting-on-actor case passes on is not declared in this header; it
    is whatever the enclosing scope binds it to, and a parameter here. *)
Definition performEscalationAction (task : ptr) (newPriority : JobPriority)
    (r : t) : list Event :=
  match DependencyKind r with
  | WaitingOnContinuation => []
  | WaitingOnTaskGroup => []
  | WaitingOnTask => [swift_task_escalate (WaitingOn r) newPriority]
  | WaitingOnActor => [swift_actor_escalate (WaitingOn r) task newPriority]
  end.

(** Modelled from the spec: what unregistering a dependency record does
    with the reference it holds.  The code is the runtime's removal path,
    not part of this header, which only says "Released when this record is
    removed from the active task status"; spec 3: the waiting-on-task
    record "holds one incremented reference, released on unregistration",
    the other three kinds hold none. *)
Definition unregister (r : t) : list Event :=
  match DependencyKind r with
  | WaitingOnTask => [swift_release (WaitingOn r)]
  | WaitingOnContinuation | WaitingOnTaskGroup | WaitingOnActor => []
  end.
End TaskDependencyStatusRecord.

(** How often [object] is retained, and released, in a sequence of calls. *)
Definition retains (object : ptr) (calls : list Event) : nat :=
  length (filter (λ e, e = swift_retain object) calls).
Definition releases (object : ptr) (calls : list Event) : nat :=
  length (filter (λ e, e = swift_release object) calls).

(** ** Records behind a [TaskStatusRecord *] *)

(** A status record of any of the classes above, as it sits in memory
    behind a pointer to its base class. *)
Inductive StatusRecord : Set :=
  | IsDeadline (r : DeadlineStatusRecord.t)
  | IsChildTask (r : ChildTaskStatusRecord.t)
  | IsTaskGroup (r : TaskGroupTaskStatusRecord.t)
  | IsCancellationNotification (r : CancellationNotificationStatusRecord.t)
  | IsEscalationNotification (r : EscalationNotificationStatusRecord.t)
  | IsTaskDependency (r : TaskDependencyStatusRecord.t).

(** The base-class subobject. *)
Definition upcast (x : StatusRecord) : TaskStatusRecord.t :=
  match x with
  | IsDeadline r => DeadlineStatusRecord.base r
  | IsChildTask r => ChildTaskStatusRecord.base r
  | IsTaskGroup r => TaskGroupTaskStatusRecord.base r
  | IsCancellationNotification r => CancellationNotificationStatusRecord.base r
  | IsEscalationNotification r => EscalationNotificationStatusRecord.base r
  | IsTaskDependency r => TaskDependencyStatusRecord.base r
  end.

(** A base-class member function that updates the base subobject in place,
    called on a record of a derived class. *)
Definition on_base (f : TaskStatusRecord.t → TaskStatusRecord.t)
    (x : StatusRecord) : StatusRecord :=
  match x with
  | IsDeadline r =>
      IsDeadline (DeadlineStatusRecord.mk
        (f (DeadlineStatusRecord.base r)) (DeadlineStatusRecord.Deadline r))
  | IsChildTask r =>
      IsChildTask (ChildTaskStatusRecord.mk
        (f (ChildTaskStatusRecord.base r)) (ChildTaskStatusRecord.FirstChild r))
  | IsTaskGroup r =>
      IsTaskGroup (TaskGroupTaskStatusRecord.mk
        (f (TaskGroupTaskStatusRecord.base r))
        (TaskGroupTaskStatusRecord.FirstChild r)
        (TaskGroupTaskStatusRecord.LastChild r))
  | IsCancellationNotification r =>
      IsCancellationNotification (CancellationNotificationStatusRecord.mk
        (f (CancellationNotificationStatusRecord.base r))
        (CancellationNotificationStatusRecord.Function r)
        (CancellationNotificationStatusRecord.Argument r))
  | IsEscalationNotification r =>
      IsEscalationNotification (EscalationNotificationStatusRecord.mk
        (f (EscalationNotificationStatusRecord.base r))
        (EscalationNotificationStatusRecord.Function r)
        (EscalationNotificationStatusRecord.Argument r))
  | IsTaskDependency r =>
      IsTaskDependency (TaskDependencyStatusRecord.mk
        (f (TaskDependencyStatusRecord.base r))
        (TaskDependencyStatusRecord.DependencyKind r)
        (TaskDependencyStatusRecord.WaitingOn r))
  end.

(** Everything a record holds besides its parent link: the record with the
    link blanked. *)
Definition besides_parent (x : StatusRecord) : StatusRecord :=
  on_base (λ b, TaskStatusRecord.mk (TaskStatusRecord.Flags b) None) x.

(** The records in memory, by address. *)
Abbreviation records := (gmap positive StatusRecord).

(** [this->getKind()], [this->getParent()] and [this->resetParent(newParent)]
    through a record pointer. *)
Definition getKind (σ : records) (this : ptr) : outcome TaskStatusRecordKind.t :=
  match this ≫= (σ !!.) with
  | Some x => Done (TaskStatusRecord.getKind (upcast x))
  | None => Undefined
  end.

Definition getParent (σ : records) (this : ptr) : outcome ptr :=
  match this ≫= (σ !!.) with
  | Some x => Done (TaskStatusRecord.getParent (upcast x))
  | None => Undefined
  end.

Definition resetParent (σ : records) (this : ptr) (newParent : ptr)
    : outcome records :=
  match this with
  | Some a =>
      match σ !! a with
      | Some x =>
          Done (<[a := on_base (TaskStatusRecord.resetParent newParent) x]> σ)
      | None => Undefined
      end
  | None => Undefined
  end.

(** ** The child list of a task group record *)

Module TG := TaskGroupTaskStatusRecord.

(** [lseg h p xs q]: following the successor slots from [p] visits exactly
    the tasks [xs], in this order, and the slot of the last one holds [q]. *)
Fixpoint lseg (h : heap) (p : ptr) (xs : list addr) (q : ptr) : Prop :=
  match xs with
  | [] => p = q
  | x :: xs' =>
      p = Some x ∧
      match h !! x with
      | Some task => lseg h (AsyncTask.NextChild task) xs' q
      | None => False
      end
  end.

(** The record links the children [xs]: the list runs from [FirstChild]
    to null through the successor slots, and [LastChild] is its last
    element. *)
Definition links (r : TG.t) (h : heap) (xs : list addr) : Prop :=
  lseg h (TG.FirstChild r) xs None ∧ TG.LastChild r = last xs.

(** Calls on one record, and their execution in sequence. *)
Inductive call : Set :=
  | attach (child : addr)
  | detach (child : addr).

Definition exec (fuel : nat) (this : addr) (c : call) (r : TG.t) (h : heap)
    : outcome (TG.t * heap) :=
  match c with
  | attach child => TG.attachChild this (Some child) r h
  | detach child => TG.detachChild fuel (Some child) r h
  end.

Fixpoint run (fuel : nat) (this : addr) (calls : list call)
    (r : TG.t) (h : heap) : outcome (TG.t * heap) :=
  match calls with
  | [] => Done (r, h)
  | c :: rest => '(r', h') ← exec fuel this c r h; run fuel this rest r' h'
  end.

(** The children attached and not yet detached, in the order of their
    attachment: what the calls mean for the group, with no reference to
    the record or the heap. *)
Definition attached_step (xs : list addr) (c : call) : list addr :=
  match c with
  | attach child => xs ++ [child]
  | detach child => filter (λ x, x ≠ child) xs
  end.

Definition attached (calls : list call) : list addr :=
  foldl attached_step [] calls.

(** A child may be attached when it is not in the list, its successor slot
    is null, and it is marked as a member of the group at [this]. *)
Definition attachable (this child : addr) (xs : list addr) (h : heap) : Prop :=
  child ∉ xs ∧
  match h !! child with
  | Some task =>
      AsyncTask.NextChild task = None ∧
      AsyncTask.GroupChildFragment task = Some this
  | None => False
  end.

(** Every [attach] of [calls] is made on an attachable child, in the state
    the calls before it have left; [xs] are the children attached on
    entry. *)
Fixpoint respects (fuel : nat) (this : addr) (calls : list call)
    (xs : list addr) (r : TG.t) (h : heap) : Prop :=
  match calls with
  | [] => True
  | c :: rest =>
      match c with
      | attach child => attachable this child xs h
      | detach _ => True
      end ∧
      match exec fuel this c r h with
      | Done (r', h') => respects fuel this rest (attached_step xs c) r' h'
      | _ => True
      end
  end.

(** The states a record goes through: built by one of its constructors,
    then any calls that return. *)
Inductive reachable (this : addr) : TG.t → heap → Prop :=
  | reachable_ctor h :
      reachable this TG.ctor h
  | reachable_ctor_child h child r :
      TG.ctor_child h child = Done r →
      reachable this r h
  | reachable_attachChild r h child r' h' :
      reachable this r h →
      TG.attachChild this child r h = Done (r', h') →
      reachable this r' h'
  | reachable_detachChild r h fuel child r' h' :
      reachable this r h →
      TG.detachChild fuel child r h = Done (r', h') →
      reachable this r' h'.

(** ** Tasks and heaps for the scenarios *)

(** A task marked as a member of the group at [this], not linked yet. *)
Definition member (this : addr) : AsyncTask.t := AsyncTask.mk None (Some this).

(** A member of the group at [this] whose successor is [next]. *)
Definition linked (this next : addr) : AsyncTask.t :=
  AsyncTask.mk (Some next) (Some this).

Definition group_base : TaskStatusRecord.t :=
  TaskStatusRecord.ctor TaskStatusRecordKind.TaskGroup None.

(** Three tasks of the group at address 10, none of them linked. *)
Definition fresh3 : heap :=
  {[ 1%positive := member 10; 2%positive := member 10; 3%positive := member 10 ]}.

(** The same three tasks linked 1, 2, 3. *)
Definition chain3 : heap :=
  {[ 1%positive := linked 10 2; 2%positive := linked 10 3;
     3%positive := member 10 ]}.

(** One deadline record at address 5. *)
Definition one_deadline : records :=
  {[ 5%positive :=
       IsDeadline (DeadlineStatusRecord.ctor (TaskDeadline.mk 100)) ]}.

(** ** The chain of status records *)

(** [this->spliceParent(newParent)] through a record pointer. *)
Definition spliceParent (σ : records) (this : ptr) (newParent : ptr)
    : outcome records :=
  match this with
  | Some a =>
      match σ !! a with
      | Some x =>
          Done (<[a := on_base (TaskStatusRecord.spliceParent newParent) x]> σ)
      | None => Undefined
      end
  | None => Undefined
  end.

(** [chain_seg σ p xs q]: following [getParent()] from [p] visits exactly
    the records [xs], innermost first, and the parent link of the last one
    is [q]. *)
Fixpoint chain_seg (σ : records) (p : ptr) (xs : list addr) (q : ptr) : Prop :=
  match xs with
  | [] => p = q
  | x :: xs' =>
      p = Some x ∧
      match σ !! x with
      | Some record =>
          chain_seg σ (TaskStatusRecord.getParent (upcast record)) xs' q
      | None => False
      end
  end.

(** The chain that starts at [p] and ends at a record with no parent. *)
Definition chain (σ : records) (p : ptr) (xs : list addr) : Prop :=
  chain_seg σ p xs None.

(** The records this header can produce: what its constructors build, and
    what its member functions make of such a record. *)
Inductive constructed : StatusRecord → Prop :=
  | constructed_Deadline deadline :
      constructed (IsDeadline (DeadlineStatusRecord.ctor deadline))
  | constructed_ChildTask h child r :
      ChildTaskStatusRecord.ctor h child = Done r →
      constructed (IsChildTask r)
  | constructed_ChildTask_kind h child kind r :
      ChildTaskStatusRecord.ctor_kind h child kind = Done r →
      constructed (IsChildTask r)
  | constructed_TaskGroup :
      constructed (IsTaskGroup TG.ctor)
  | constructed_TaskGroup_child h child r :
      TG.ctor_child h child = Done r →
      constructed (IsTaskGroup r)
  | constructed_CancellationNotification fn arg :
      constructed (IsCancellationNotification
                     (CancellationNotificationStatusRecord.ctor fn arg))
  | constructed_EscalationNotification fn arg :
      constructed (IsEscalationNotification
                     (EscalationNotificationStatusRecord.ctor fn arg))
  | constructed_continuation continuation :
      constructed (IsTaskDependency
                     (TaskDependencyStatusRecord.ctor_continuation continuation).1)
  | constructed_task task :
      constructed (IsTaskDependency (TaskDependencyStatusRecord.ctor_task task).1)
  | constructed_taskGroup taskGroup :
      constructed (IsTaskDependency
                     (TaskDependencyStatusRecord.ctor_taskGroup taskGroup).1)
  | constructed_actor actor :
      constructed (IsTaskDependency (TaskDependencyStatusRecord.ctor_actor actor).1)
  | constructed_resetParent x newParent :
      constructed x →
      constructed (on_base (TaskStatusRecord.resetParent newParent) x)
  | constructed_spliceParent x newParent :
      constructed x →
      constructed (on_base (TaskStatusRecord.spliceParent newParent) x)
  | constructed_attachChild this child r h r' h' :
      constructed (IsTaskGroup r) →
      TG.attachChild this child r h = Done (r', h') →
      constructed (IsTaskGroup r')
  | constructed_detachChild fuel child r h r' h' :
      constructed (IsTaskGroup r) →
      TG.detachChild fuel child r h = Done (r', h') →
      constructed (IsTaskGroup r').

(** The class of a record, as the tag of its variant. *)
Definition class_of (x : StatusRecord) : TaskStatusRecordKind.t :=
  match x with
  | IsDeadline _ => TaskStatusRecordKind.Deadline
  | IsChildTask _ => TaskStatusRecordKind.ChildTask
  | IsTaskGroup _ => TaskStatusRecordKind.TaskGroup
  | IsCancellationNotification _ => TaskStatusRecordKind.CancellationNotification
  | IsEscalationNotification _ => TaskStatusRecordKind.EscalationNotification
  | IsTaskDependency _ => TaskStatusRecordKind.TaskDependency
  end.

(** Three records in a chain, 3 innermost, then 2, then 1. *)
Definition chain3_records : records :=
  {[ 1%positive := IsDeadline (DeadlineStatusRecord.ctor (TaskDeadline.mk 100));
     2%positive := on_base (TaskStatusRecord.resetParent (Some 1%positive))
                     (IsTaskGroup TG.ctor);
     3%positive := on_base (TaskStatusRecord.resetParent (Some 2%positive))
                     (IsDeadline (DeadlineStatusRecord.ctor (TaskDeadline.mk 50))) ]}.

(** * Properties *)

(** ** The outcome monad *)

Lemma bind_Done {A B} (m : outcome A) (f : A → outcome B) (b : B) :
  m ≫= f = Done b ↔ ∃ a, m = Done a ∧ f a = Done b.
Proof.
  destruct m; simpl; naive_solver.
Qed.

Lemma assert_Done (b : bool) (u : unit) : assert b = Done u ↔ b = true.
Proof. destruct b, u; simpl; split; done. Qed.

Lemma deref_Some (h : heap) (a : addr) (task : AsyncTask.t) :
  h !! a = Some task → deref h (Some a) = Done task.
Proof. intros H. simpl. by rewrite H. Qed.

Lemma getNextChildTask_Some (h : heap) (a : addr) (task : AsyncTask.t) :
  h !! a = Some task →
  TG.getNextChildTask h (Some a) = Done (AsyncTask.NextChild task).
Proof. intros H. unfold TG.getNextChildTask. simpl. by rewrite H. Qed.

Lemma getNextChildTask_Done (h : heap) (p q : ptr) :
  TG.getNextChildTask h p = Done q ↔
  ∃ a task, p = Some a ∧ h !! a = Some task ∧ q = AsyncTask.NextChild task.
Proof.
  unfold TG.getNextChildTask. destruct p as [a|]; simpl.
  - destruct (h !! a) as [task|] eqn:Ha; simpl; split.
    + intros [= <-]. eauto.
    + intros (? & ? & [= <-] & Ht & ->). by simplify_eq.
    + done.
    + intros (? & ? & [= <-] & Ht & _). by simplify_eq.
  - split; [done | by intros (? & ? & [=] & _)].
Qed.

(** ** List segments *)

Lemma lseg_app h p xs ys q :
  lseg h p (xs ++ ys) q ↔ ∃ m, lseg h p xs m ∧ lseg h m ys q.
Proof.
  revert p. induction xs as [|x xs IH]; intros p; simpl.
  - split; [eauto | by intros (? & -> & ?)].
  - destruct (h !! x) as [task|]; [| naive_solver].
    rewrite IH. naive_solver.
Qed.

Lemma lseg_functional h p xs ys :
  lseg h p xs None → lseg h p ys None → xs = ys.
Proof.
  revert p ys. induction xs as [|x xs IH]; intros p [|y ys]; simpl; try naive_solver.
  intros [-> Hx] [[= <-] Hy].
  destruct (h !! x); [| done]. f_equal. eauto.
Qed.

Lemma lseg_NoDup h p xs : lseg h p xs None → NoDup xs.
Proof.
  revert p. induction xs as [|x xs IH]; intros p H; [constructor |].
  pose proof H as H0. simpl in H. destruct H as [-> H].
  destruct (h !! x) as [task|] eqn:Hx; [| done].
  constructor; [| eauto].
  intros (l1 & l2 & ->)%list_elem_of_split.
  apply lseg_app in H as (m & _ & H2).
  assert (m = Some x) as -> by (by destruct H2).
  pose proof (lseg_functional _ _ _ _ H0 H2) as Heq.
  apply (f_equal length) in Heq.
  simpl in Heq. rewrite length_app in Heq. simpl in Heq. lia.
Qed.

Lemma lseg_frame h a task p xs q :
  a ∉ xs → lseg h p xs q → lseg (<[a := task]> h) p xs q.
Proof.
  revert p. induction xs as [|x xs IH]; intros p Ha; simpl; [done |].
  apply not_elem_of_cons in Ha as [Hne Ha].
  intros [-> H]. split; [done |].
  rewrite lookup_insert_ne by done.
  destruct (h !! x); [eauto | done].
Qed.

Lemma lseg_snoc h p xs x q :
  lseg h p (xs ++ [x]) q ↔
  lseg h p xs (Some x) ∧ ∃ task, h !! x = Some task ∧ AsyncTask.NextChild task = q.
Proof.
  rewrite lseg_app. simpl. split.
  - intros (m & H1 & -> & H2). destruct (h !! x); naive_solver.
  - intros (H1 & task & Hx & <-). exists (Some x). rewrite Hx. done.
Qed.

(** ** children() *)

Lemma rangeBeginning_lseg h p xs fuel :
  lseg h p xs None → length xs ≤ fuel →
  rangeBeginning TG.getNextChildTask fuel h p = Done xs.
Proof.
  revert p fuel. induction xs as [|x xs IH]; intros p fuel; simpl.
  - intros -> _. by destruct fuel.
  - intros [-> H] Hlen. destruct fuel as [|fuel]; [lia |].
    destruct (h !! x) as [task|] eqn:Hx; [| done].
    simpl. rewrite (getNextChildTask_Some _ _ _ Hx). simpl.
    rewrite (IH _ fuel H) by lia. done.
Qed.

Lemma rangeBeginning_Done h p xs fuel :
  rangeBeginning TG.getNextChildTask fuel h p = Done xs → lseg h p xs None.
Proof.
  revert p xs. induction fuel as [|fuel IH]; intros [a|] xs; simpl; try done.
  - intros [= <-]. done.
  - intros (next & Hn & (rest & Hr & [= <-])%bind_Done)%bind_Done.
    apply getNextChildTask_Done in Hn as (? & task & [= <-] & Ha & ->).
    simpl. rewrite Ha. eauto.
  - intros [= <-]. done.
Qed.

Lemma children_links r h xs fuel :
  links r h xs → length xs ≤ fuel → TG.children fuel r h = Done xs.
Proof. intros [H _] Hlen. by apply rangeBeginning_lseg. Qed.

(** ** attachChild *)

Lemma attachChild_unfold this r h child task :
  h !! child = Some task →
  AsyncTask.GroupChildFragment task = Some this →
  TG.attachChild this (Some child) r h =
    match TG.FirstChild r with
    | None => Done (TG.mk (TG.base r) (Some child) (Some child), h)
    | Some _ =>
        h' ← setNextChild h (TG.LastChild r) (Some child);
        Done (TG.mk (TG.base r) (TG.FirstChild r) (Some child), h')
    end.
Proof.
  intros Hc Hg. unfold TG.attachChild. rewrite (deref_Some _ _ _ Hc). simpl.
  unfold AsyncTask.hasGroupChildFragment, TG.getGroup. rewrite Hg.
  rewrite !bool_decide_true by eauto. simpl.
  destruct r as [b [f|] l]; reflexivity.
Qed.

Lemma links_nil_inv r h xs :
  links r h xs → TG.FirstChild r = None → xs = [] ∧ TG.LastChild r = None.
Proof.
  intros [H Hl] Hf. rewrite Hf in H. destruct xs; [| by destruct H].
  by rewrite Hl.
Qed.

Lemma links_snoc_inv r h xs :
  links r h xs → TG.FirstChild r ≠ None →
  ∃ xs0 l ltask, xs = xs0 ++ [l] ∧ TG.LastChild r = Some l ∧
    h !! l = Some ltask ∧ AsyncTask.NextChild ltask = None ∧
    lseg h (TG.FirstChild r) xs0 (Some l) ∧ l ∉ xs0.
Proof.
  intros [H Hl] Hf.
  destruct (decide (xs = [])) as [->|Hne]; [by simpl in H |].
  destruct (exists_last Hne) as (xs0 & l & ->).
  pose proof (lseg_NoDup _ _ _ H) as Hnd.
  apply lseg_snoc in H as (H0 & ltask & Hlt & Hn).
  exists xs0, l, ltask. rewrite last_snoc in Hl.
  apply NoDup_app in Hnd as (_ & Hd & _).
  repeat split; try done. intros Hin. eapply Hd; [done | set_solver].
Qed.

Lemma attachChild_links this r h child task xs :
  h !! child = Some task →
  AsyncTask.GroupChildFragment task = Some this →
  links r h xs →
  ∃ r' h', TG.attachChild this (Some child) r h = Done (r', h') ∧
    TG.base r' = TG.base r ∧
    TG.LastChild r' = Some child ∧
    lseg h' (TG.FirstChild r') xs (Some child) ∧
    (∀ a, Some a ≠ TG.LastChild r → h' !! a = h !! a) ∧
    (child ∉ xs → AsyncTask.NextChild task = None → links r' h' (xs ++ [child])).
Proof.
  intros Hc Hg Hl. rewrite (attachChild_unfold _ _ _ _ _ Hc Hg).
  destruct (TG.FirstChild r) as [f|] eqn:Hf.
  - destruct (links_snoc_inv r h xs Hl) as (xs0 & l & ltask & -> & Hlast & Hlt & Hn & H0 & Hni);
      [by rewrite Hf |].
    rewrite Hlast. simpl. rewrite Hlt. simpl.
    eexists _, _. split; [done |]. simpl.
    assert (Hseg : lseg (<[l:=AsyncTask.setNextChild (Some child) ltask]> h)
                     (Some f) (xs0 ++ [l]) (Some child)).
    { apply lseg_snoc. split.
      - apply lseg_frame; [done |]. by rewrite <- Hf.
      - eexists. by rewrite lookup_insert_eq. }
    repeat split; try done.
    + intros a Ha. rewrite lookup_insert_ne; [done | congruence].
    + apply lseg_snoc. split; [done |].
      exists task. split; [| done].
      rewrite lookup_insert_ne; [done |]. set_solver.
    + by rewrite last_snoc.
  - destruct (links_nil_inv r h xs Hl Hf) as [-> Hlast].
    eexists _, _. split; [done |]. simpl.
    repeat split; try done. simpl. by rewrite Hc.
Qed.

(** ** detachChild *)

Lemma lseg_head_ne h p xs (child : addr) :
  lseg h p xs None → child ∉ xs → p ≠ Some child.
Proof.
  destruct xs as [|x xs]; simpl; [by intros -> |].
  intros [-> _] Hni [= ->]. set_solver.
Qed.

Lemma detachChild_scan_absent fuel child r h p xs :
  lseg h p xs None → child ∉ xs → length xs ≤ fuel →
  TG.detachChild_scan fuel (Some child) p r h = Done (r, h).
Proof.
  revert p fuel. induction xs as [|x xs IH]; intros p fuel; simpl.
  - intros -> _ _. by destruct fuel.
  - intros [-> H] Hni Hlen. destruct fuel as [|fuel]; [lia |].
    destruct (h !! x) as [task|] eqn:Hx; [| done].
    apply not_elem_of_cons in Hni as [Hne Hni].
    simpl. rewrite (getNextChildTask_Some _ _ _ Hx). simpl.
    rewrite decide_False by by eapply lseg_head_ne.
    apply IH; [done | done | lia].
Qed.

Lemma detachChild_scan_found fuel child ctask r h p ys :
  lseg h (Some p) (p :: ys) (Some child) →
  child ∉ p :: ys →
  h !! child = Some ctask →
  length ys < fuel →
  ∃ prev ptask, last (p :: ys) = Some prev ∧ h !! prev = Some ptask ∧
    TG.detachChild_scan fuel (Some child) (Some p) r h =
      Done (if decide (Some child = TG.LastChild r)
            then TG.setLastChild (Some prev) r else r,
            <[prev := AsyncTask.setNextChild (AsyncTask.NextChild ctask) ptask]> h).
Proof.
  revert p fuel. induction ys as [|y ys IH]; intros p fuel [_ H] Hni Hc Hlen;
    (destruct fuel as [|fuel]; [simpl in Hlen; lia |]);
    destruct (h !! p) as [task|] eqn:Hp; try done.
  - simpl in H. exists p, task. split; [done |]. split; [done |].
    simpl. rewrite (getNextChildTask_Some _ _ _ Hp). simpl. rewrite H.
    rewrite decide_True by done.
    rewrite (getNextChildTask_Some _ _ _ Hc). simpl. rewrite Hp. done.
  - pose proof H as H'. destruct H' as [Hn _].
    apply not_elem_of_cons in Hni as [Hne Hni].
    destruct (IH y fuel) as (prev & ptask & Hlast & Hprev & Hscan).
    { by rewrite <- Hn. }
    { done. } { done. } { simpl in Hlen. lia. }
    exists prev, ptask. split; [done |]. split; [done |].
    simpl. rewrite (getNextChildTask_Some _ _ _ Hp). simpl. rewrite Hn.
    rewrite decide_False; [done |].
    intros [= ->]. set_solver.
Qed.

Lemma filter_ne_absent (xs : list addr) (child : addr) :
  child ∉ xs → filter (λ x, x ≠ child) xs = xs.
Proof.
  induction xs as [|x xs IH]; [done |].
  intros [Hne Hni]%not_elem_of_cons.
  rewrite filter_cons_True by done. f_equal. auto.
Qed.

Lemma filter_ne_middle (pre post : list addr) (child : addr) :
  NoDup (pre ++ child :: post) →
  filter (λ x, x ≠ child) (pre ++ child :: post) = pre ++ post.
Proof.
  intros Hnd. apply NoDup_app in Hnd as (_ & Hpre & Hpost).
  apply NoDup_cons in Hpost as [Hpost _].
  rewrite filter_app, filter_cons_False by (by intros []).
  f_equal; apply filter_ne_absent; [| done].
  intros Hin. eapply Hpre; [done | set_solver].
Qed.

Lemma detachChild_unfold fuel child r h :
  TG.detachChild fuel (Some child) r h =
    if decide (TG.FirstChild r = Some child) then
      next ← TG.getNextChildTask h (Some child);
      Done (TG.mk (TG.base r) next
              (if decide (next = None) then None else TG.LastChild r), h)
    else TG.detachChild_scan fuel (Some child) (TG.FirstChild r) r h.
Proof.
  unfold TG.detachChild. rewrite bool_decide_true by done. simpl.
  destruct (decide (TG.FirstChild r = Some child)); [| done].
  unfold TG.getNextChildTask. simpl.
  destruct (h !! child) as [task|]; simpl; [| done].
  destruct r as [b f l]; simpl.
  by destruct (decide (AsyncTask.getNextChild task = None)).
Qed.

Lemma last_cons_ne (x : addr) (xs : list addr) :
  xs ≠ [] → last (x :: xs) = last xs.
Proof. by destruct xs. Qed.

Lemma detachChild_first fuel child post r h :
  links r h (child :: post) →
  ∃ ctask, h !! child = Some ctask ∧
    let next := AsyncTask.NextChild ctask in
    let r' := TG.mk (TG.base r) next
                (if decide (next = None) then None else TG.LastChild r) in
    TG.detachChild fuel (Some child) r h = Done (r', h) ∧
    (next = None ↔ post = []) ∧
    links r' h post.
Proof.
  intros [[Hf H] Hl]. simpl in H.
  destruct (h !! child) as [ctask|] eqn:Hc; [| done].
  exists ctask. split; [done |]. simpl.
  rewrite detachChild_unfold, decide_True by done.
  rewrite (getNextChildTask_Some _ _ _ Hc). simpl.
  split; [done |].
  assert (Hnil : AsyncTask.NextChild ctask = None ↔ post = []).
  { destruct post; simpl in H; [done |]. destruct H as [-> _]. done. }
  split; [done |]. split; [done |]. simpl.
  destruct (decide (AsyncTask.NextChild ctask = None)) as [Hn|Hn].
  - apply Hnil in Hn as ->. done.
  - rewrite Hl. apply last_cons_ne. by rewrite <- Hnil.
Qed.

Lemma detachChild_inner fuel pre prev child post r h :
  links r h (pre ++ prev :: child :: post) →
  length pre < fuel →
  ∃ ctask ptask, h !! child = Some ctask ∧ h !! prev = Some ptask ∧
    AsyncTask.NextChild ptask = Some child ∧
    TG.FirstChild r ≠ Some child ∧
    let r' := TG.mk (TG.base r) (TG.FirstChild r)
                (if decide (Some child = TG.LastChild r)
                 then Some prev else TG.LastChild r) in
    let h' := <[prev := AsyncTask.setNextChild (AsyncTask.NextChild ctask) ptask]> h in
    TG.detachChild fuel (Some child) r h = Done (r', h') ∧
    links r' h' (pre ++ prev :: post).
Proof.
  intros [H Hl] Hlen.
  pose proof (lseg_NoDup _ _ _ H) as Hnd.
  replace (pre ++ prev :: child :: post)
    with ((pre ++ [prev]) ++ child :: post) in * by by rewrite <- app_assoc.
  apply lseg_app in H as (m & Hpre & Hpost).
  pose proof Hpost as Hpost'. simpl in Hpost'. destruct Hpost' as [-> Hpost'].
  destruct (h !! child) as [ctask|] eqn:Hc; [| done].
  pose proof Hpre as Hpre'.
  apply lseg_snoc in Hpre' as (Hpre0 & ptask & Hp & Hn).
  apply NoDup_app in Hnd as (Hnd1 & Hdisj & Hnd2).
  assert (Hcpre : child ∉ pre ++ [prev]).
  { intros Hin. eapply Hdisj; [done | set_solver]. }
  apply NoDup_cons in Hnd2 as [Hcpost _].
  assert (Hppre : prev ∉ pre).
  { apply NoDup_app in Hnd1 as (_ & Hd & _). intros Hin. eapply Hd; [done | set_solver]. }
  assert (Hppost : prev ∉ post).
  { intros Hin. eapply (Hdisj prev); set_solver. }
  assert (Hfirst : TG.FirstChild r ≠ Some child).
  { intros Hf. rewrite Hf in Hpre. destruct pre; simpl in Hpre;
      destruct Hpre as [[= <-] _]; set_solver. }
  exists ctask, ptask. do 4 (split; [done |]). simpl.
  rewrite detachChild_unfold, decide_False by done.
  assert (Hscan : ∃ p ys, pre ++ [prev] = p :: ys ∧ TG.FirstChild r = Some p).
  { destruct pre as [|p pre]; simpl in *; destruct Hpre as [-> _]; eauto. }
  destruct Hscan as (p & ys & Heq & Hf). rewrite Hf.
  rewrite Heq, Hf in Hpre. rewrite Heq in Hcpre.
  destruct (detachChild_scan_found fuel child ctask r h p ys)
    as (prev' & ptask' & Hlast & Hp' & ->); try done.
  { apply (f_equal length) in Heq. rewrite length_app in Heq. simpl in Heq. lia. }
  rewrite <- Heq, last_snoc in Hlast. injection Hlast as <-.
  rewrite Hp in Hp'. injection Hp' as <-.
  assert (Hlastc : Some child = TG.LastChild r ↔ post = []).
  { rewrite Hl. split.
    - intros Hlc. destruct post as [|x post]; [done |].
      rewrite last_app_cons, last_cons_cons in Hlc.
      symmetry in Hlc. by apply last_Some_elem_of in Hlc.
    - intros ->. by rewrite last_snoc. }
  split.
  { f_equal. f_equal. destruct r as [b f l]; simpl in *. rewrite Hf.
    by destruct (decide (Some child = l)). }
  split; simpl.
  - rewrite <- Hf. apply lseg_app. exists (Some prev). split.
    + by apply lseg_frame.
    + simpl. split; [done |]. rewrite lookup_insert_eq. simpl.
      by apply lseg_frame.
  - destruct (decide (Some child = TG.LastChild r)) as [Hd|Hd].
    + apply Hlastc in Hd as ->. by rewrite last_snoc.
    + rewrite Hl. destruct post as [|x post]; [by destruct Hd; apply Hlastc |].
      by rewrite (last_app_cons pre), !last_app_cons, !last_cons_cons.
Qed.

Lemma detachChild_absent fuel child r h xs :
  lseg h (TG.FirstChild r) xs None → child ∉ xs → length xs ≤ fuel →
  TG.detachChild fuel (Some child) r h = Done (r, h).
Proof.
  intros H Hni Hlen. rewrite detachChild_unfold.
  rewrite decide_False by by eapply lseg_head_ne.
  by eapply detachChild_scan_absent.
Qed.

Lemma detachChild_links fuel child r h xs :
  links r h xs → length xs ≤ fuel →
  ∃ r' h', TG.detachChild fuel (Some child) r h = Done (r', h') ∧
    links r' h' (filter (λ x, x ≠ child) xs) ∧
    h' !! child = h !! child.
Proof.
  intros Hlinks Hlen.
  destruct (decide (child ∈ xs)) as [Hin|Hni].
  - apply list_elem_of_split in Hin as (pre & post & ->).
    pose proof (lseg_NoDup _ _ _ (proj1 Hlinks)) as Hnd.
    rewrite (filter_ne_middle _ _ _ Hnd).
    destruct (decide (pre = [])) as [->|Hne].
    + destruct (detachChild_first fuel child post r h Hlinks)
        as (ctask & Hc & Hrun & _ & Hl').
      eauto 6.
    + destruct (exists_last Hne) as (pre0 & prev & ->).
      rewrite <- !app_assoc in *. simpl in *.
      destruct (detachChild_inner fuel pre0 prev child post r h Hlinks)
        as (ctask & ptask & Hc & Hp & Hn & Hf & Hrun & Hl').
      { rewrite length_app in Hlen. simpl in Hlen. lia. }
      eexists _, _. split; [done |]. split; [done |].
      rewrite lookup_insert_ne; [done |].
      apply NoDup_app in Hnd as (_ & _ & Hnd).
      apply NoDup_cons in Hnd as [Hnd _]. set_solver.
  - rewrite (filter_ne_absent _ _ Hni).
    rewrite (detachChild_absent fuel child r h xs (proj1 Hlinks) Hni Hlen).
    eauto.
Qed.

(** What a call that returns has done. *)

Lemma attachChild_Done this child r h r' h' :
  TG.attachChild this child r h = Done (r', h') →
  ∃ c task, child = Some c ∧ h !! c = Some task ∧
    AsyncTask.GroupChildFragment task = Some this ∧
    TG.base r' = TG.base r ∧ TG.LastChild r' = Some c ∧
    ((TG.FirstChild r = None ∧ TG.FirstChild r' = Some c ∧ h' = h) ∨
     (TG.FirstChild r ≠ None ∧ TG.FirstChild r' = TG.FirstChild r ∧
      ∃ l ltask, TG.LastChild r = Some l ∧ h !! l = Some ltask ∧
        h' = <[l := AsyncTask.setNextChild (Some c) ltask]> h)).
Proof.
  unfold TG.attachChild.
  intros (task & Hd & (_ & _ & (_ & Hg%assert_Done & H)%bind_Done)%bind_Done)%bind_Done.
  apply bool_decide_eq_true in Hg.
  destruct child as [c|]; [| done]. simpl in Hd.
  destruct (h !! c) as [task'|] eqn:Hc; [| done]. injection Hd as ->.
  exists c, task. do 3 (split; [done |]).
  destruct r as [b [f|] l]; simpl in *.
  - destruct l as [l|]; [| done]. simpl in H.
    destruct (h !! l) as [ltask|] eqn:Hl; [| done].
    injection H as <- <-. simpl. do 2 (split; [done |]).
    right. do 2 (split; [done |]). eauto.
  - injection H as <- <-. simpl. do 2 (split; [done |]). by left.
Qed.

Lemma detachChild_scan_Done fuel c prev r h r' h' :
  TG.detachChild_scan fuel (Some c) prev r h = Done (r', h') →
  prev ≠ Some c →
  TG.base r' = TG.base r ∧ TG.FirstChild r' = TG.FirstChild r ∧
  h' !! c = h !! c ∧
  (prev ≠ None → TG.LastChild r ≠ None → TG.LastChild r' ≠ None) ∧
  (prev = None → r' = r).
Proof.
  revert prev. induction fuel as [|fuel IH]; intros [p|] H Hne; simpl in H;
    try done; try (by injection H as <- <-).
  apply bind_Done in H as (afterPrev & Hn & H).
  destruct (decide (afterPrev = Some c)) as [->|Hne'].
  - apply bind_Done in H as (afterChild & Hnc & (h1 & Hset & H)%bind_Done).
    simpl in Hset. destruct (h !! p) as [ptask|] eqn:Hp; [| done].
    injection Hset as <-. injection H as <- <-.
    assert (p ≠ c) by congruence.
    rewrite lookup_insert_ne by done.
    destruct (decide (Some c = TG.LastChild r)); simpl; done.
  - destruct (IH _ H Hne') as (Hb & Hf & Hc & Hl & Hnone).
    do 3 (split; [done |]). split; [| done].
    intros _ Hlast. destruct afterPrev as [q|].
    + by apply Hl.
    + by rewrite Hnone.
Qed.

Lemma detachChild_Done fuel child r h r' h' :
  TG.detachChild fuel child r h = Done (r', h') →
  ∃ c, child = Some c ∧ TG.base r' = TG.base r ∧ h' !! c = h !! c ∧
    ((TG.FirstChild r = None ↔ TG.LastChild r = None) →
     (TG.FirstChild r' = None ↔ TG.LastChild r' = None)).
Proof.
  unfold TG.detachChild.
  intros (_ & Hnn%assert_Done & H)%bind_Done.
  apply bool_decide_eq_true in Hnn.
  destruct child as [c|]; [| done]. exists c. split; [done |].
  destruct (decide (TG.FirstChild r = Some c)) as [Hf|Hf].
  - apply bind_Done in H as (next & Hn & H). injection H as <- <-.
    destruct r as [b f l]; simpl in *. subst f.
    destruct next as [n|]; simpl; [| done].
    do 2 (split; [done |]). intros Hinv.
    split; [done |]. intros Hl. by apply Hinv in Hl.
  - destruct (detachChild_scan_Done _ _ _ _ _ _ _ H Hf) as (Hb & Hf' & Hc & Hl & Hnone).
    do 2 (split; [done |]). intros Hinv.
    destruct (TG.FirstChild r) as [f|] eqn:Hfirst.
    + rewrite Hf'. split; [done |]. intros Hl'. exfalso.
      apply Hl; [done | | done]. intros Hlast. by apply Hinv in Hlast.
    + rewrite (Hnone eq_refl), Hfirst. done.
Qed.

(** ** Sequences of calls *)

Lemma attached_step_length xs c :
  length (attached_step xs c) ≤ S (length xs).
Proof.
  destruct c as [child|child]; simpl.
  - rewrite length_app. simpl. lia.
  - pose proof (length_filter (λ x, x ≠ child) xs). lia.
Qed.

Lemma foldl_attached_step_length calls xs :
  length (foldl attached_step xs calls) ≤ length xs + length calls.
Proof.
  revert xs. induction calls as [|c calls IH]; intros xs; simpl; [lia |].
  pose proof (IH (attached_step xs c)).
  pose proof (attached_step_length xs c). lia.
Qed.

Lemma run_links fuel this calls xs r h :
  links r h xs →
  respects fuel this calls xs r h →
  length xs + length calls ≤ fuel →
  ∃ r' h', run fuel this calls r h = Done (r', h') ∧
    links r' h' (foldl attached_step xs calls).
Proof.
  revert xs r h. induction calls as [|c calls IH]; intros xs r h Hl Hr Hlen.
  - simpl. eauto.
  - simpl in Hr, Hlen. destruct Hr as [Hpre Hr].
    pose proof (attached_step_length xs c) as Hstep.
    assert (Hexec : ∃ r1 h1, exec fuel this c r h = Done (r1, h1) ∧
                      links r1 h1 (attached_step xs c)).
    { destruct c as [child|child]; simpl.
      - destruct Hpre as [Hni Hpre].
        destruct (h !! child) as [task|] eqn:Hc; [| done].
        destruct Hpre as [Hn Hg].
        destruct (attachChild_links this r h child task xs Hc Hg Hl)
          as (r1 & h1 & Hrun & _ & _ & _ & _ & Hfresh).
        exists r1, h1. split; [done |]. by apply Hfresh.
      - destruct (detachChild_links fuel child r h xs Hl) as (r1 & h1 & Hrun & Hl1 & _);
          [lia |]. eauto. }
    destruct Hexec as (r1 & h1 & Hexec & Hl1).
    rewrite Hexec in Hr. simpl. rewrite Hexec. simpl.
    apply IH; [done | done | lia].
Qed.

(** * The claims *)

(** C4.  [attachChild(child)], for a child that passes the membership
    assertions, appends at the tail.  If [FirstChild] is null, both
    [FirstChild] and [LastChild] become [child] and no task is written.
    Otherwise the successor slot of the previous last child is set to
    [child], [LastChild] becomes [child] and [FirstChild] stays.  Insertion
    order is preserved: the walk from [FirstChild] still visits the children
    linked before, in their order, and then arrives at [child]; when the
    successor slot of [child] is null and [child] was not in the list, the
    record links the old children followed by [child], and [children()]
    yields them in this order. *)
Theorem attachChild_appends_at_tail this r h child task :
  h !! child = Some task →
  AsyncTask.GroupChildFragment task = Some this →
  (TG.FirstChild r = None →
     TG.attachChild this (Some child) r h =
       Done (TG.mk (TG.base r) (Some child) (Some child), h)) ∧
  (∀ l ltask,
     TG.FirstChild r ≠ None → TG.LastChild r = Some l → h !! l = Some ltask →
     TG.attachChild this (Some child) r h =
       Done (TG.mk (TG.base r) (TG.FirstChild r) (Some child),
             <[l := AsyncTask.setNextChild (Some child) ltask]> h)) ∧
  (∀ xs, links r h xs →
     ∃ r' h', TG.attachChild this (Some child) r h = Done (r', h') ∧
       lseg h' (TG.FirstChild r') xs (Some child) ∧
       (AsyncTask.NextChild task = None → child ∉ xs →
          links r' h' (xs ++ [child]) ∧
          ∀ fuel, length xs < fuel →
            TG.children fuel r' h' = Done (xs ++ [child]))).
Proof.
  intros Hc Hg. rewrite (attachChild_unfold _ _ _ _ _ Hc Hg).
  split; [| split].
  - by intros ->.
  - intros l ltask Hf Hl Hlt. destruct (TG.FirstChild r); [| done].
    rewrite Hl. simpl. by rewrite Hlt.
  - intros xs Hlinks.
    destruct (attachChild_links this r h child task xs Hc Hg Hlinks)
      as (r' & h' & Hrun & _ & _ & Hseg & _ & Hfresh).
    rewrite (attachChild_unfold _ _ _ _ _ Hc Hg) in Hrun.
    exists r', h'. split; [done |]. split; [done |].
    intros Hn Hni. split; [by apply Hfresh |].
    intros fuel Hlen. apply children_links; [by apply Hfresh |].
    rewrite length_app. simpl. lia.
Qed.

(** C3.  [detachChild(child)] on a record that links a list containing
    [child].  If [child] is [FirstChild], [FirstChild] advances to the
    successor of [child], and when that is null [LastChild] is cleared too
    and [child] was the only element; no task is written.  Otherwise the
    scan from [FirstChild] stops at the one node [prev] whose successor is
    [child]; the successor slot of [prev] is redirected to the successor of
    [child], and [LastChild] becomes [prev] if [child] was [LastChild].
    With a budget of at least the length of the list the call returns, and
    the record then links the list without [child]. *)
Theorem detachChild_splices fuel r h xs child :
  links r h xs → child ∈ xs → length xs ≤ fuel →
  ∃ ctask, h !! child = Some ctask ∧
    let next := AsyncTask.NextChild ctask in
    (TG.FirstChild r = Some child →
       TG.detachChild fuel (Some child) r h =
         Done (TG.mk (TG.base r) next
                 (if decide (next = None) then None else TG.LastChild r), h) ∧
       (next = None → xs = [child])) ∧
    (TG.FirstChild r ≠ Some child →
       ∃ pre prev post ptask, xs = pre ++ prev :: child :: post ∧
         h !! prev = Some ptask ∧ AsyncTask.NextChild ptask = Some child ∧
         TG.detachChild fuel (Some child) r h =
           Done (TG.mk (TG.base r) (TG.FirstChild r)
                   (if decide (Some child = TG.LastChild r)
                    then Some prev else TG.LastChild r),
                 <[prev := AsyncTask.setNextChild next ptask]> h)) ∧
    ∃ r' h', TG.detachChild fuel (Some child) r h = Done (r', h') ∧
      links r' h' (filter (λ x, x ≠ child) xs).
Proof.
  intros Hlinks (pre & post & ->)%list_elem_of_split Hlen.
  pose proof (lseg_NoDup _ _ _ (proj1 Hlinks)) as Hnd.
  rewrite (filter_ne_middle _ _ _ Hnd).
  destruct (decide (pre = [])) as [->|Hne].
  - simpl in *.
    destruct (detachChild_first fuel child post r h Hlinks)
      as (ctask & Hc & Hrun & Hnil & Hl').
    exists ctask. split; [done |]. simpl. split; [| split].
    + intros _. split; [done |]. by intros ->%Hnil.
    + intros Hf. by destruct Hlinks as [[? _] _].
    + eauto.
  - destruct (exists_last Hne) as (pre0 & prev & ->).
    rewrite <- !app_assoc in *. simpl in *.
    destruct (detachChild_inner fuel pre0 prev child post r h Hlinks)
      as (ctask & ptask & Hc & Hp & Hn & Hf & Hrun & Hl').
    { rewrite length_app in Hlen. simpl in Hlen. lia. }
    exists ctask. split; [done |]. simpl. split; [| split].
    + done.
    + intros _. exists pre0, prev, post, ptask. done.
    + eauto.
Qed.

(** C6.  [detachChild(child)] for a non-null [child] that is not in the
    list of the record scans the list to its end and returns, with the
    record and every task as they were. *)
Theorem detachChild_absent_is_noop fuel r h xs child :
  lseg h (TG.FirstChild r) xs None → child ∉ xs → length xs ≤ fuel →
  TG.detachChild fuel (Some child) r h = Done (r, h).
Proof. apply detachChild_absent. Qed.

(** C1, as amended.  Take any sequence of [attachChild] and [detachChild]
    calls on a record built by the default constructor, in which every
    [attachChild(child)] is made on a child that is then not in the list,
    has a null successor slot and is marked as a member of this group.
    With a budget of at least the number of calls every call returns, and
    [children()] on the final record yields exactly the children attached
    and not yet detached, in the order they were attached. *)
Theorem children_after_calls fuel this calls h :
  respects fuel this calls [] TG.ctor h →
  length calls ≤ fuel →
  ∃ r' h', run fuel this calls TG.ctor h = Done (r', h') ∧
    ∀ n, length (attached calls) ≤ n →
      TG.children n r' h' = Done (attached calls).
Proof.
  intros Hr Hlen.
  destruct (run_links fuel this calls [] TG.ctor h) as (r' & h' & Hrun & Hl);
    [done | done | simpl; lia |].
  exists r', h'. split; [done |].
  intros n Hn. by apply children_links.
Qed.

(** C7.  Every state of a record reached from one of its constructors by
    calls of [attachChild] and [detachChild] that return has [FirstChild]
    null if and only if [LastChild] is null, and both are null exactly when
    [children()] is the empty sequence. *)
Theorem first_null_iff_last_null this r h :
  reachable this r h →
  (TG.FirstChild r = None ↔ TG.LastChild r = None) ∧
  ∀ fuel, (TG.FirstChild r = None ∧ TG.LastChild r = None) ↔
          TG.children fuel r h = Done [].
Proof.
  intros Hreach.
  assert (Hinv : TG.FirstChild r = None ↔ TG.LastChild r = None).
  { induction Hreach as [h|h child r Hctor|r h child r' h' _ IH Hrun
                         |r h fuel child r' h' _ IH Hrun].
    - done.
    - unfold TG.ctor_child in Hctor. simpl in Hctor.
      destruct child as [c|]; [| by injection Hctor as <-].
      apply bind_Done in Hctor as (? & _ & (_ & _ & [= <-])%bind_Done). done.
    - apply attachChild_Done in Hrun
        as (c & task & _ & _ & _ & _ & Hl & [(_ & Hf & _)|(Hne & Hf & _)]).
      + by rewrite Hf, Hl.
      + rewrite Hf, Hl. done.
    - apply detachChild_Done in Hrun as (c & _ & _ & _ & Hstep). auto. }
  split; [done |].
  intros fuel. unfold TG.children, TG.getFirstChild. split.
  - intros [-> _]. by destruct fuel.
  - destruct (TG.FirstChild r) as [f|] eqn:Hf; [| by intros _; split; [| apply Hinv]].
    destruct fuel as [|fuel]; simpl; [done |].
    intros (? & _ & (? & _ & [=])%bind_Done)%bind_Done.
Qed.

(** C10, as amended.  [attachChild(child)] writes, besides [FirstChild]
    and [LastChild] of the record, at most the successor slot of the
    previous last child, so the successor slot of [child] itself is left as
    it was unless [child] is that previous last child.  [detachChild(child)]
    leaves the task [child] as it was: its successor slot is not cleared
    and still holds its former successor.  Both calls return on a record
    that links a list, with a budget of at least its length. *)
Theorem successor_slot_of_child_kept :
  (∀ this child r h r' h',
     TG.attachChild this (Some child) r h = Done (r', h') →
     (h' = h ∨
      ∃ l ltask, TG.LastChild r = Some l ∧ h !! l = Some ltask ∧
        h' = <[l := AsyncTask.setNextChild (Some child) ltask]> h) ∧
     (TG.LastChild r ≠ Some child → h' !! child = h !! child)) ∧
  (∀ fuel child r h r' h',
     TG.detachChild fuel (Some child) r h = Done (r', h') →
     h' !! child = h !! child) ∧
  (∀ this child task r h xs,
     h !! child = Some task → AsyncTask.GroupChildFragment task = Some this →
     links r h xs → child ∉ xs →
     ∃ r' h', TG.attachChild this (Some child) r h = Done (r', h') ∧
       h' !! child = Some task) ∧
  (∀ fuel child r h xs,
     links r h xs → child ∈ xs → length xs ≤ fuel →
     ∃ r' h', TG.detachChild fuel (Some child) r h = Done (r', h') ∧
       h' !! child = h !! child).
Proof.
  split; [| split; [| split]].
  - intros this child r h r' h' Hrun.
    apply attachChild_Done in Hrun
      as (c & task & [= <-] & Hc & _ & _ & _ & [(_ & _ & ->)|(_ & _ & l & ltask & Hl & Hlt & ->)]).
    + split; [by left | done].
    + split; [right; eauto |].
      intros Hne. rewrite lookup_insert_ne; [done | congruence].
  - intros fuel child r h r' h' Hrun.
    by apply detachChild_Done in Hrun as (c & [= <-] & _ & Hc & _).
  - intros this child task r h xs Hc Hg Hl Hni.
    destruct (attachChild_links this r h child task xs Hc Hg Hl)
      as (r' & h' & Hrun & _ & _ & _ & Hframe & _).
    exists r', h'. split; [done |]. rewrite Hframe; [done |].
    destruct Hl as [_ ->]. intros Heq. symmetry in Heq.
    by apply last_Some_elem_of in Heq.
  - intros fuel child r h xs Hl Hin Hlen.
    destruct (detachChild_links fuel child r h xs Hl Hlen) as (r' & h' & Hrun & Hl' & Hc).
    by exists r', h'.
Qed.

(** C2.  [performEscalationAction(newPriority)] dispatches on the stored
    dependency kind.  On a record constructed for a continuation or for a
    task group it makes no call; on one constructed for a task it calls
    [swift_task_escalate] on that task with the priority; on one
    constructed for an actor it calls [swift_actor_escalate] on that actor
    with [task] and the priority.  For any record the calls are determined
    by its kind and the pointer it stores. *)
Theorem performEscalationAction_dispatch (task : ptr) (p : JobPriority) :
  (∀ continuation,
     TaskDependencyStatusRecord.performEscalationAction task p
       (TaskDependencyStatusRecord.ctor_continuation continuation).1 = []) ∧
  (∀ taskGroup,
     TaskDependencyStatusRecord.performEscalationAction task p
       (TaskDependencyStatusRecord.ctor_taskGroup taskGroup).1 = []) ∧
  (∀ waited,
     TaskDependencyStatusRecord.performEscalationAction task p
       (TaskDependencyStatusRecord.ctor_task waited).1
     = [swift_task_escalate waited p]) ∧
  (∀ actor,
     TaskDependencyStatusRecord.performEscalationAction task p
       (TaskDependencyStatusRecord.ctor_actor actor).1
     = [swift_actor_escalate actor task p]) ∧
  (∀ r,
     TaskDependencyStatusRecord.performEscalationAction task p r =
       match TaskDependencyStatusRecord.DependencyKind r with
       | TaskDependencyStatusRecord.WaitingOnContinuation => []
       | TaskDependencyStatusRecord.WaitingOnTaskGroup => []
       | TaskDependencyStatusRecord.WaitingOnTask =>
           [swift_task_escalate (TaskDependencyStatusRecord.WaitingOn r) p]
       | TaskDependencyStatusRecord.WaitingOnActor =>
           [swift_actor_escalate (TaskDependencyStatusRecord.WaitingOn r) task p]
       end).
Proof. repeat split. Qed.

(** C8.  Constructing a dependency record that waits on a task makes
    exactly one call, a retain of that task; constructing one that waits on
    a continuation, a task group or an actor makes no call.  Unregistering
    the record that waits on a task releases that task once; unregistering
    any of the other three releases nothing. *)
Theorem dependency_record_references (object : ptr) :
  (TaskDependencyStatusRecord.ctor_task object).2 = [swift_retain object] ∧
  retains object (TaskDependencyStatusRecord.ctor_task object).2 = 1 ∧
  (TaskDependencyStatusRecord.ctor_continuation object).2 = [] ∧
  (TaskDependencyStatusRecord.ctor_taskGroup object).2 = [] ∧
  (TaskDependencyStatusRecord.ctor_actor object).2 = [] ∧
  TaskDependencyStatusRecord.unregister
    (TaskDependencyStatusRecord.ctor_task object).1 = [swift_release object] ∧
  releases object
    (TaskDependencyStatusRecord.unregister
       (TaskDependencyStatusRecord.ctor_task object).1) = 1 ∧
  TaskDependencyStatusRecord.unregister
    (TaskDependencyStatusRecord.ctor_continuation object).1 = [] ∧
  TaskDependencyStatusRecord.unregister
    (TaskDependencyStatusRecord.ctor_taskGroup object).1 = [] ∧
  TaskDependencyStatusRecord.unregister
    (TaskDependencyStatusRecord.ctor_actor object).1 = [].
Proof.
  repeat split.
  - unfold retains. simpl. by rewrite filter_cons_True, filter_nil.
  - unfold releases, TaskDependencyStatusRecord.unregister. simpl.
    by rewrite filter_cons_True, filter_nil.
Qed.

Lemma besides_parent_determines x y :
  besides_parent x = besides_parent y →
  TaskStatusRecord.Parent (upcast x) = TaskStatusRecord.Parent (upcast y) →
  x = y.
Proof.
  destruct x as [[[? ?] ?]|[[? ?] ?]|[[? ?] ? ?]|[[? ?] ? ?]|[[? ?] ? ?]|[[? ?] ? ?]],
           y as [[[? ?] ?]|[[? ?] ?]|[[? ?] ? ?]|[[? ?] ? ?]|[[? ?] ? ?]|[[? ?] ? ?]];
    simpl; intros [=] ?; by subst.
Qed.

(** C9.  [resetParent(p)] on a record of any class only rewrites the parent
    link: afterwards [getParent()] is [p], [getKind()] is what it was (for
    a record fresh from the base constructor, the kind given there),
    everything else the record holds is unchanged, and so is every other
    record. *)
Theorem resetParent_only_sets_parent (σ : records) (this : addr)
    (x : StatusRecord) (p : ptr) :
  σ !! this = Some x →
  ∃ σ', resetParent σ (Some this) p = Done σ' ∧
    getParent σ' (Some this) = Done p ∧
    getKind σ' (Some this) = getKind σ (Some this) ∧
    (besides_parent <$> σ' !! this) = Some (besides_parent x) ∧
    (∀ other, other ≠ this → σ' !! other = σ !! other) ∧
    (∀ kind parent,
       TaskStatusRecord.getKind
         (TaskStatusRecord.resetParent p (TaskStatusRecord.ctor kind parent))
       = kind).
Proof.
  intros Hx. unfold resetParent, getParent, getKind. rewrite Hx.
  eexists. split; [done |]. simpl. rewrite lookup_insert_eq, Hx.
  repeat split.
  - by destruct x.
  - by destruct x.
  - by destruct x.
  - intros other Hne. by rewrite lookup_insert_ne.
Qed.

(** The two-argument constructor of [ChildTaskStatusRecord] stops at an
    assertion for every child that is a group member. *)
Lemma ctor_kind_group_child h child task kind :
  h !! child = Some task →
  AsyncTask.hasGroupChildFragment task = true →
  ChildTaskStatusRecord.ctor_kind h (Some child) kind = AssertionFailure.
Proof.
  intros Hc Hg. unfold ChildTaskStatusRecord.ctor_kind.
  destruct (bool_decide _); simpl; [| done].
  by rewrite Hc; simpl; rewrite Hg.
Qed.

(** * Scenarios *)

Section Scenarios.
Local Open Scope positive_scope.

Lemma links_chain3 :
  links (TG.mk group_base (Some 1) (Some 3)) chain3 [1; 2; 3].
Proof. split; [| reflexivity]. vm_compute. done. Defined.

(** Attaching 1, 2, 3 and detaching 2 leaves 1, 3. *)
Lemma children_after_calls_scenario :
  respects 4 10 [attach 1; attach 2; attach 3; detach 2] [] TG.ctor fresh3 ∧
  ∃ r' h',
    run 4 10 [attach 1; attach 2; attach 3; detach 2] TG.ctor fresh3
      = Done (r', h') ∧
    ∀ n, (2 ≤ n)%nat → TG.children n r' h' = Done [1; 3].
Proof.
  assert (Hr : respects 4 10 [attach 1; attach 2; attach 3; detach 2] []
                 TG.ctor fresh3).
  { vm_compute. repeat split; intros Hin; set_solver. }
  split; [exact Hr |].
  apply (children_after_calls 4 10 _ fresh3 Hr). simpl. lia.
Defined.

(** Attaching the same child twice.  The successor slot of the child is
    null before each call and no child is detached; both calls return, and
    the successor slot of the child then points at the child itself, so
    [children()] never reaches the end of the list, whatever the budget. *)
Lemma children_after_attaching_twice :
  fresh3 !! 1 = Some (member 10) ∧
  TG.attachChild 10 (Some 1) TG.ctor fresh3
    = Done (TG.mk group_base (Some 1) (Some 1), fresh3) ∧
  TG.attachChild 10 (Some 1) (TG.mk group_base (Some 1) (Some 1)) fresh3
    = Done (TG.mk group_base (Some 1) (Some 1), <[1 := linked 10 1]> fresh3) ∧
  (∀ fuel, run fuel 10 [attach 1; attach 1] TG.ctor fresh3
     = Done (TG.mk group_base (Some 1) (Some 1), <[1 := linked 10 1]> fresh3)) ∧
  attached [attach 1; attach 1] = [1; 1] ∧
  (∀ n, TG.children n (TG.mk group_base (Some 1) (Some 1))
          (<[1 := linked 10 1]> fresh3) = OutOfFuel).
Proof.
  repeat split.
  intros n. unfold TG.children. simpl.
  induction n as [|n IH]; [done |].
  simpl. rewrite (getNextChildTask_Some _ 1 (linked 10 1)) by done.
  simpl. by rewrite IH.
Qed.

Lemma detachChild_splices_scenario :
  links (TG.mk group_base (Some 1) (Some 3)) chain3 [1; 2; 3] ∧
  ∃ r' h',
    TG.detachChild 3 (Some 2) (TG.mk group_base (Some 1) (Some 3)) chain3
      = Done (r', h') ∧
    links r' h' [1; 3].
Proof.
  split; [exact links_chain3 |].
  destruct (detachChild_splices 3 (TG.mk group_base (Some 1) (Some 3)) chain3
              [1; 2; 3] 2 links_chain3)
    as (_ & _ & _ & _ & r' & h' & Hrun & Hl); [set_solver | simpl; lia |].
  by exists r', h'.
Defined.

Lemma attachChild_appends_at_tail_scenario :
  TG.attachChild 10 (Some 2) (TG.mk group_base (Some 1) (Some 1)) fresh3 =
    Done (TG.mk group_base (Some 1) (Some 2), <[ 1 := linked 10 2 ]> fresh3).
Proof.
  refine (proj1 (proj2 (attachChild_appends_at_tail 10
            (TG.mk group_base (Some 1) (Some 1)) fresh3 2 (member 10) _ _))
          1 (member 10) _ _ _); done.
Defined.

Lemma detachChild_absent_is_noop_scenario :
  TG.detachChild 3 (Some 4) (TG.mk group_base (Some 1) (Some 3)) chain3
    = Done (TG.mk group_base (Some 1) (Some 3), chain3).
Proof.
  apply (detachChild_absent_is_noop 3 _ chain3 [1; 2; 3] 4).
  - exact (proj1 links_chain3).
  - set_solver.
  - simpl. lia.
Defined.

Lemma reachable_scenario :
  reachable 10 (TG.mk group_base (Some 2) (Some 2)) (<[1 := linked 10 2]> fresh3).
Proof.
  apply (reachable_detachChild 10 (TG.mk group_base (Some 1) (Some 2))
           (<[1 := linked 10 2]> fresh3) 2 (Some 1)); [| reflexivity].
  apply (reachable_attachChild 10 (TG.mk group_base (Some 1) (Some 1))
           fresh3 (Some 2)); [| reflexivity].
  apply (reachable_attachChild 10 TG.ctor fresh3 (Some 1)); [| reflexivity].
  apply reachable_ctor.
Defined.

Lemma first_null_iff_last_null_scenario :
  reachable 10 (TG.mk group_base (Some 2) (Some 2)) (<[1 := linked 10 2]> fresh3) ∧
  ∀ fuel, TG.children fuel (TG.mk group_base (Some 2) (Some 2))
            (<[1 := linked 10 2]> fresh3) ≠ Done [].
Proof.
  split; [exact reachable_scenario |].
  intros fuel Hnil.
  by apply (proj2 (first_null_iff_last_null 10 _ _ reachable_scenario) fuel) in Hnil
    as [? _].
Defined.

(** Attaching the child that is already the last one (the record is the
    one [attachChild] builds from the empty record) writes the successor
    slot of that very child. *)
Lemma attachChild_of_last_child_writes_its_slot :
  TG.attachChild 10 (Some 1) TG.ctor fresh3
    = Done (TG.mk group_base (Some 1) (Some 1), fresh3) ∧
  TG.attachChild 10 (Some 1) (TG.mk group_base (Some 1) (Some 1)) fresh3
    = Done (TG.mk group_base (Some 1) (Some 1), <[1 := linked 10 1]> fresh3) ∧
  AsyncTask.NextChild <$> fresh3 !! 1 = Some None ∧
  AsyncTask.NextChild <$> (<[1 := linked 10 1]> fresh3) !! 1 = Some (Some 1).
Proof. repeat split. Qed.

Lemma successor_slot_of_child_kept_scenario :
  ∃ r' h',
    TG.detachChild 3 (Some 2) (TG.mk group_base (Some 1) (Some 3)) chain3
      = Done (r', h') ∧
    h' !! 2 = Some (linked 10 3).
Proof.
  destruct (proj2 (proj2 (proj2 successor_slot_of_child_kept)) 3%nat 2
              (TG.mk group_base (Some 1) (Some 3)) chain3 [1; 2; 3] links_chain3)
    as (r' & h' & Hrun & Hc); [set_solver | simpl; lia |].
  exists r', h'. split; [exact Hrun |]. rewrite Hc. reflexivity.
Defined.

Lemma resetParent_only_sets_parent_scenario :
  ∃ σ', resetParent one_deadline (Some 5) (Some 7) = Done σ' ∧
    getParent σ' (Some 5) = Done (Some 7) ∧
    getKind σ' (Some 5) = Done TaskStatusRecordKind.Deadline.
Proof.
  destruct (resetParent_only_sets_parent one_deadline 5
              (IsDeadline (DeadlineStatusRecord.ctor (TaskDeadline.mk 100)))
              (Some 7))
    as (σ' & Hrun & Hp & Hk & _); [reflexivity |].
  exists σ'. split; [exact Hrun |]. split; [exact Hp |]. rewrite Hk. reflexivity.
Defined.

(** C5.  The one-argument constructor of [ChildTaskStatusRecord] accepts a
    child that is a group member, where the two-argument constructor stops
    at its assertion. *)
Lemma ChildTaskStatusRecord_ctor_unchecked :
  AsyncTask.hasGroupChildFragment (member 10) = true ∧
  fresh3 !! 1 = Some (member 10) ∧
  ChildTaskStatusRecord.ctor fresh3 (Some 1)
    = Done (ChildTaskStatusRecord.mk
              (TaskStatusRecord.ctor TaskStatusRecordKind.ChildTask None)
              (Some 1)) ∧
  ChildTaskStatusRecord.ctor_kind fresh3 (Some 1) TaskStatusRecordKind.ChildTask
    = AssertionFailure.
Proof. repeat split. Qed.

(** The scenario of the specification: attach 1, 2, 3; detach 2, then 3,
    then 1. *)
Example group_list_scenario :
  run 3 10 [attach 1; attach 2; attach 3] TG.ctor fresh3
    = Done (TG.mk group_base (Some 1) (Some 3), chain3) ∧
  TG.children 3 (TG.mk group_base (Some 1) (Some 3)) chain3 = Done [1; 2; 3] ∧
  run 4 10 [attach 1; attach 2; attach 3; detach 2] TG.ctor fresh3
    = Done (TG.mk group_base (Some 1) (Some 3), <[1 := linked 10 3]> chain3) ∧
  TG.children 3 (TG.mk group_base (Some 1) (Some 3)) (<[1 := linked 10 3]> chain3)
    = Done [1; 3] ∧
  run 5 10 [attach 1; attach 2; attach 3; detach 2; detach 3] TG.ctor fresh3
    = Done (TG.mk group_base (Some 1) (Some 1), <[1 := member 10]> chain3) ∧
  TG.children 3 (TG.mk group_base (Some 1) (Some 1)) (<[1 := member 10]> chain3)
    = Done [1] ∧
  run 6 10 [attach 1; attach 2; attach 3; detach 2; detach 3; detach 1]
      TG.ctor fresh3
    = Done (TG.ctor, <[1 := member 10]> chain3).
Proof. repeat split. Qed.

End Scenarios.

(** * Further properties *)

(** ** Kinds and classes *)

Lemma ctor_kind_Done h child kind r :
  ChildTaskStatusRecord.ctor_kind h child kind = Done r ↔
  kind = TaskStatusRecordKind.ChildTask ∧
  (∃ c task, child = Some c ∧ h !! c = Some task ∧
     AsyncTask.hasGroupChildFragment task = false) ∧
  ChildTaskStatusRecord.ctor h child = Done r.
Proof.
  unfold ChildTaskStatusRecord.ctor_kind, ChildTaskStatusRecord.ctor.
  destruct (decide (kind = TaskStatusRecordKind.ChildTask)) as [->|Hk].
  - rewrite bool_decide_true by done. simpl.
    destruct child as [c|]; simpl; [| by split; [| intros (_ & (? & ? & [=] & _) & _)]].
    destruct (h !! c) as [task|] eqn:Hc; simpl;
      [| by split; [| intros (_ & (? & ? & [= <-] & ? & _) & _); simplify_eq]].
    destruct (AsyncTask.hasGroupChildFragment task) eqn:Hg; simpl.
    + split; [done |]. intros (_ & (? & ? & [= <-] & ? & ?) & _). simplify_eq. congruence.
    + split; [| by intros (_ & _ & ?)]. intros [= <-]. eauto 8.
  - rewrite bool_decide_false by done. simpl. split; [done | by intros [? _]].
Qed.

Lemma constructed_getKind x :
  constructed x → TaskStatusRecord.getKind (upcast x) = class_of x.
Proof.
  induction 1 as [| h child r Hc | h child kind r Hc | | h child r Hc | | | | | | |
                  x p _ IH | x p _ IH | this child r h r' h' _ IH Hrun
                  | fuel child r h r' h' _ IH Hrun]; try done.
  - by injection Hc as <-.
  - apply ctor_kind_Done in Hc as (-> & _ & Hc). by injection Hc as <-.
  - unfold TG.ctor_child in Hc. simpl in Hc.
    destruct child as [c|]; [| by injection Hc as <-].
    by apply bind_Done in Hc as (? & _ & (_ & _ & [= <-])%bind_Done).
  - by destruct x.
  - by destruct x.
  - apply attachChild_Done in Hrun as (? & ? & _ & _ & _ & Hb & _).
    simpl in *. by rewrite Hb.
  - apply detachChild_Done in Hrun as (? & _ & Hb & _).
    simpl in *. by rewrite Hb.
Qed.

(** X1.  A record produced by this header (built by any constructor of any
    class, then changed by [resetParent], [spliceParent], [attachChild] or
    [detachChild]) carries the kind of its own class, so the [classof] test
    of a class accepts it exactly when it is a record of that class. *)
Theorem classof_accepts_own_class x :
  constructed x →
  TaskStatusRecord.getKind (upcast x) = class_of x ∧
  (DeadlineStatusRecord.classof (upcast x) = true ↔ ∃ r, x = IsDeadline r) ∧
  (ChildTaskStatusRecord.classof (upcast x) = true ↔ ∃ r, x = IsChildTask r) ∧
  (TG.classof (upcast x) = true ↔ ∃ r, x = IsTaskGroup r) ∧
  (CancellationNotificationStatusRecord.classof (upcast x) = true ↔
     ∃ r, x = IsCancellationNotification r) ∧
  (EscalationNotificationStatusRecord.classof (upcast x) = true ↔
     ∃ r, x = IsEscalationNotification r).
Proof.
  intros Hk%constructed_getKind. split; [done |].
  unfold DeadlineStatusRecord.classof, ChildTaskStatusRecord.classof, TG.classof,
    CancellationNotificationStatusRecord.classof,
    EscalationNotificationStatusRecord.classof.
  rewrite Hk, !bool_decide_eq_true.
  destruct x; simpl; repeat split; try done; try (by intros [? [=]]); eauto.
Qed.

(** X2.  The two-argument constructor of [ChildTaskStatusRecord] returns
    exactly when the kind is [ChildTask] and the child is a live task that
    is not a group member, and then builds the very record the one-argument
    constructor builds.  With any other kind it stops at its first
    assertion, whatever the child, a null one included. *)
Theorem ctor_kind_agrees_with_ctor h child kind :
  (∀ r, ChildTaskStatusRecord.ctor_kind h child kind = Done r ↔
     kind = TaskStatusRecordKind.ChildTask ∧
     (∃ c task, child = Some c ∧ h !! c = Some task ∧
        AsyncTask.hasGroupChildFragment task = false) ∧
     ChildTaskStatusRecord.ctor h child = Done r) ∧
  (kind ≠ TaskStatusRecordKind.ChildTask →
     ChildTaskStatusRecord.ctor_kind h child kind = AssertionFailure) ∧
  (kind = TaskStatusRecordKind.ChildTask → child = None →
     ChildTaskStatusRecord.ctor_kind h child kind = Undefined).
Proof.
  split; [intros r; apply ctor_kind_Done |]. split.
  - intros Hk. unfold ChildTaskStatusRecord.ctor_kind.
    by rewrite bool_decide_false.
  - by intros -> ->.
Qed.

(** X3.  [operator==] and [operator<] of [TaskDeadline] form a strict total
    order on deadlines: [==] holds exactly for equal deadlines, [<] is
    irreflexive and transitive, and of [a < b], [a == b], [b < a] exactly
    one holds. *)
Theorem TaskDeadline_total_order (a b c : TaskDeadline.t) :
  (TaskDeadline.eqb a b = true ↔ a = b) ∧
  TaskDeadline.ltb a a = false ∧
  (TaskDeadline.ltb a b = true → TaskDeadline.ltb b c = true →
     TaskDeadline.ltb a c = true) ∧
  ((TaskDeadline.ltb a b = true ∧ TaskDeadline.eqb a b = false ∧
      TaskDeadline.ltb b a = false) ∨
   (TaskDeadline.ltb a b = false ∧ TaskDeadline.eqb a b = true ∧
      TaskDeadline.ltb b a = false) ∨
   (TaskDeadline.ltb a b = false ∧ TaskDeadline.eqb a b = false ∧
      TaskDeadline.ltb b a = true)).
Proof.
  destruct a as [x], b as [y], c as [z].
  unfold TaskDeadline.eqb, TaskDeadline.ltb. simpl.
  rewrite !bool_decide_eq_true. repeat split.
  - by intros ->.
  - by intros [= ->].
  - apply bool_decide_eq_false. lia.
  - lia.
  - destruct (N.lt_total x y) as [Hlt|[->|Hgt]].
    + left. rewrite !bool_decide_eq_false. lia.
    + right. left. rewrite !bool_decide_eq_false. lia.
    + right. right. rewrite !bool_decide_eq_false. lia.
Qed.

(** ** The constructor of a group record from one child *)

(** X4.  [TaskGroupTaskStatusRecord(child)] with a null child builds the
    empty record of the default constructor.  With a live child it returns
    exactly when the successor slot of the child is null and stops at its
    assertion otherwise; the record it returns links the list of just that
    child, which [children()] then yields. *)
Theorem ctor_child_links_one_child h :
  TG.ctor_child h None = Done TG.ctor ∧
  (∀ c task, h !! c = Some task → AsyncTask.NextChild task ≠ None →
     TG.ctor_child h (Some c) = AssertionFailure) ∧
  (∀ c task, h !! c = Some task → AsyncTask.NextChild task = None →
     ∃ r, TG.ctor_child h (Some c) = Done r ∧ links r h [c] ∧
       ∀ fuel, 1 ≤ fuel → TG.children fuel r h = Done [c]) ∧
  (∀ child r, TG.ctor_child h child = Done r → links r h (option_list child)).
Proof.
  split; [done |]. split; [| split].
  - intros c task Hc Hn. unfold TG.ctor_child. simpl.
    rewrite (getNextChildTask_Some _ _ _ Hc). simpl.
    by rewrite bool_decide_false.
  - intros c task Hc Hn. unfold TG.ctor_child. simpl.
    rewrite (getNextChildTask_Some _ _ _ Hc). simpl.
    rewrite bool_decide_true by done. simpl.
    eexists. split; [done |].
    assert (Hl : links (TG.mk (TaskStatusRecord.ctor TaskStatusRecordKind.TaskGroup None)
                          (Some c) (Some c)) h [c]).
    { split; [| done]. simpl. by rewrite Hc. }
    split; [done |]. intros fuel Hf. by apply children_links.
  - intros [c|] r; unfold TG.ctor_child; simpl.
    + intros (next & Hn & (_ & Ha%assert_Done & [= <-])%bind_Done)%bind_Done.
      apply bool_decide_eq_true in Ha as ->.
      apply getNextChildTask_Done in Hn as (? & task & [= <-] & Hc & Hn).
      split; [| done]. simpl. by rewrite Hc.
    + by intros [= <-].
Qed.

(** ** How attachChild and detachChild compose *)

Lemma run_attach_detach fuel this child r h :
  run fuel this [attach child; detach child] r h =
    '(r1, h1) ← TG.attachChild this (Some child) r h;
    TG.detachChild fuel (Some child) r1 h1.
Proof.
  simpl. destruct (TG.attachChild this (Some child) r h) as [[r1 h1]| | |]; simpl; [| done..].
  by destruct (TG.detachChild fuel (Some child) r1 h1) as [[r2 h2]| | |].
Qed.

(** X5.  Attaching a child that is not in the list (successor slot null,
    member of this group) and detaching it again restores the record and
    every task exactly: [FirstChild], [LastChild] and all successor slots
    are as before. *)
Theorem attach_then_detach_restores fuel this r h xs child task :
  links r h xs → child ∉ xs → h !! child = Some task →
  AsyncTask.NextChild task = None →
  AsyncTask.GroupChildFragment task = Some this →
  length xs ≤ fuel →
  run fuel this [attach child; detach child] r h = Done (r, h).
Proof.
  intros Hl Hni Hc Hn Hg Hlen. rewrite run_attach_detach.
  destruct (attachChild_links this r h child task xs Hc Hg Hl)
    as (r1 & h1 & Hrun & _ & _ & _ & _ & Hl1).
  specialize (Hl1 Hni Hn). rewrite Hrun. simpl.
  rewrite (attachChild_unfold _ _ _ _ _ Hc Hg) in Hrun.
  destruct (TG.FirstChild r) as [f|] eqn:Hf.
  - destruct (links_snoc_inv r h xs Hl) as (xs0 & l & ltask & -> & Hlast & Hlt & Hln & _ & _);
      [by rewrite Hf |].
    rewrite Hlast in Hrun. simpl in Hrun. rewrite Hlt in Hrun. simpl in Hrun.
    injection Hrun as <- <-.
    rewrite <- app_assoc in Hl1. simpl in Hl1.
    destruct (detachChild_inner fuel xs0 l child [] _ _ Hl1)
      as (ctask & ptask & Hc' & Hp & _ & _ & -> & _).
    { rewrite length_app in Hlen. simpl in Hlen. lia. }
    rewrite lookup_insert_eq in Hp. injection Hp as <-.
    assert (l ≠ child) by set_solver.
    rewrite lookup_insert_ne in Hc' by done. rewrite Hc in Hc'. injection Hc' as <-.
    simpl. rewrite decide_True by done.
    rewrite insert_insert_eq, Hn.
    replace (AsyncTask.setNextChild None (AsyncTask.setNextChild (Some child) ltask))
      with ltask by (destruct ltask; simpl in Hln; by subst).
    rewrite insert_id by done.
    destruct r as [b f' l']; simpl in *. by subst.
  - destruct (links_nil_inv r h xs Hl Hf) as [-> Hlast].
    injection Hrun as <- <-.
    destruct (detachChild_first fuel child [] _ _ Hl1) as (ctask & Hc' & -> & _).
    rewrite Hc in Hc'. injection Hc' as <-. simpl. rewrite Hn.
    rewrite decide_True by done.
    destruct r as [b f' l']; simpl in *. by subst.
Qed.

(** X6.  Detaching a child a second time changes nothing: on a record that
    links a list, [detachChild(child)] twice leaves exactly the record and
    the tasks that one call leaves. *)
Theorem detach_twice_is_detach_once fuel this r h xs child :
  links r h xs → length xs ≤ fuel →
  ∃ r' h', run fuel this [detach child] r h = Done (r', h') ∧
    run fuel this [detach child; detach child] r h = Done (r', h').
Proof.
  intros Hl Hlen.
  destruct (detachChild_links fuel child r h xs Hl Hlen) as (r' & h' & Hrun & Hl' & _).
  exists r', h'. simpl. rewrite Hrun. simpl. split; [done |].
  rewrite (detachChild_absent fuel child r' h' _ (proj1 Hl')); [done | |].
  - rewrite list_elem_of_filter. by intros [? _].
  - pose proof (length_filter (λ x, x ≠ child) xs). lia.
Qed.

Lemma run_detach_links fuel this ys r h xs :
  links r h xs → length xs ≤ fuel →
  ∃ r' h', run fuel this (detach <$> ys) r h = Done (r', h') ∧
    TG.base r' = TG.base r ∧
    links r' h' (filter (λ x, x ∉ ys) xs).
Proof.
  revert r h xs. induction ys as [|y ys IH]; intros r h xs Hl Hlen.
  - exists r, h. do 2 (split; [done |]).
    replace (filter (λ x, x ∉ []) xs) with xs; [done |].
    clear. induction xs as [|x xs IH]; [done |].
    rewrite filter_cons_True by set_solver. by f_equal.
  - destruct (detachChild_links fuel y r h xs Hl Hlen) as (r1 & h1 & Hrun & Hl1 & _).
    destruct (IH r1 h1 _ Hl1) as (r' & h' & Hrun' & Hb & Hl').
    { pose proof (length_filter (λ x, x ≠ y) xs). lia. }
    exists r', h'. simpl. rewrite Hrun. simpl. split; [done |].
    apply detachChild_Done in Hrun as (? & _ & Hb1 & _).
    split; [congruence |].
    rewrite list_filter_filter in Hl'.
    erewrite list_filter_iff; [exact Hl' |].
    intros z. simpl. set_solver.
Qed.

(** X7.  Detaching every child of the list, in any order and however often,
    empties the record: all calls return, and [FirstChild] and [LastChild]
    are both null again. *)
Theorem detaching_every_child_empties fuel this r h xs ys :
  links r h xs → xs ⊆ ys → length xs ≤ fuel →
  ∃ h', run fuel this (detach <$> ys) r h
        = Done (TG.mk (TG.base r) None None, h') ∧
    ∀ n, TG.children n (TG.mk (TG.base r) None None) h' = Done [].
Proof.
  intros Hl Hsub Hlen.
  destruct (run_detach_links fuel this ys r h xs Hl Hlen) as (r' & h' & Hrun & Hb & Hl').
  assert (Hnil : filter (λ x, x ∉ ys) xs = []).
  { destruct (filter (λ x, x ∉ ys) xs) as [|x l] eqn:Hfl; [done |].
    assert (Hx : x ∈ filter (λ x, x ∉ ys) xs) by (rewrite Hfl; set_solver).
    apply list_elem_of_filter in Hx as [Hx1 Hx2]. set_solver. }
  rewrite Hnil in Hl'. destruct Hl' as [Hf Hla]. simpl in Hf, Hla.
  exists h'. split.
  - rewrite Hrun. destruct r' as [b f l]; simpl in *. by subst.
  - intros n. by destruct n.
Qed.

(** ** The cost of detachChild *)

Lemma detachChild_scan_short fuel child r h p ys :
  lseg h (Some p) (p :: ys) (Some child) →
  child ∉ p :: ys →
  fuel ≤ length ys →
  TG.detachChild_scan fuel (Some child) (Some p) r h = OutOfFuel.
Proof.
  revert p fuel. induction ys as [|y ys IH]; intros p fuel [_ H] Hni Hlen;
    (destruct fuel as [|fuel]; [done |]); simpl in Hlen; [lia |].
  destruct (h !! p) as [task|] eqn:Hp; [| done].
  pose proof H as [Hn _].
  apply not_elem_of_cons in Hni as [Hne Hni].
  simpl. rewrite (getNextChildTask_Some _ _ _ Hp). simpl. rewrite Hn.
  rewrite decide_False by (intros [= ->]; set_solver).
  apply IH; [by rewrite <- Hn | done | lia].
Qed.

(** X8.  On a record that links a list, [detachChild(child)] runs its loop
    once for every child in front of [child]: it returns within a budget
    of that many iterations and within no smaller one.  So detaching the
    first child takes no iteration, and detaching the last one takes a scan
    of all the others, [LastChild] notwithstanding. *)
Theorem detachChild_iterations fuel r h pre child post :
  links r h (pre ++ child :: post) →
  (length pre ≤ fuel →
     ∃ r' h', TG.detachChild fuel (Some child) r h = Done (r', h')) ∧
  (fuel < length pre →
     TG.detachChild fuel (Some child) r h = OutOfFuel).
Proof.
  intros Hl. split.
  - intros Hlen. destruct (decide (pre = [])) as [->|Hne].
    + destruct (detachChild_first fuel child post r h Hl) as (? & _ & Hrun & _). eauto.
    + destruct (exists_last Hne) as (pre0 & prev & ->).
      rewrite <- app_assoc in Hl. simpl in Hl.
      destruct (detachChild_inner fuel pre0 prev child post r h Hl)
        as (? & ? & _ & _ & _ & _ & Hrun & _); [| eauto].
      rewrite length_app in Hlen. simpl in Hlen. lia.
  - intros Hlen. destruct pre as [|p ys]; [simpl in Hlen; lia |].
    pose proof (lseg_NoDup _ _ _ (proj1 Hl)) as Hnd.
    destruct Hl as [H _].
    change ((p :: ys) ++ child :: post) with (p :: (ys ++ child :: post)) in H, Hnd.
    pose proof H as [Hf _].
    assert (Hni : child ∉ p :: ys).
    { change (p :: ys ++ child :: post) with ((p :: ys) ++ child :: post) in Hnd.
      apply NoDup_app in Hnd as (_ & Hd & _). intros Hin. eapply Hd; [done | set_solver]. }
    rewrite detachChild_unfold, Hf.
    rewrite decide_False by (intros [= ->]; set_solver).
    apply (detachChild_scan_short fuel child r h p ys); [| done | simpl in Hlen; lia].
    rewrite Hf in H.
    change (p :: ys ++ child :: post) with ((p :: ys) ++ child :: post) in H.
    apply lseg_app in H as (m & H1 & H2).
    by destruct H2 as [-> _].
Qed.

(** ** What the calls never touch *)

Lemma detachChild_scan_writes fuel child prev r h r' h' :
  TG.detachChild_scan fuel child prev r h = Done (r', h') →
  h' = h ∨ ∃ p ptask q, h !! p = Some ptask ∧
    h' = <[p := AsyncTask.setNextChild q ptask]> h.
Proof.
  revert prev. induction fuel as [|fuel IH]; intros [p|] H; simpl in H;
    try done; try (injection H as <- <-; by left).
  apply bind_Done in H as (afterPrev & Hn & H).
  destruct (decide (afterPrev = child)) as [->|Hne]; [| eauto].
  apply bind_Done in H as (afterChild & Hnc & (h1 & Hset & H)%bind_Done).
  simpl in Hset. destruct (h !! p) as [ptask|] eqn:Hp; [| done].
  injection Hset as <-. injection H as _ <-. right. eauto.
Qed.

Lemma exec_writes fuel this c r h r' h' :
  exec fuel this c r h = Done (r', h') →
  TG.base r' = TG.base r ∧
  (h' = h ∨ ∃ p ptask q, h !! p = Some ptask ∧
     h' = <[p := AsyncTask.setNextChild q ptask]> h).
Proof.
  destruct c as [child|child]; simpl; intros Hrun.
  - apply attachChild_Done in Hrun
      as (c & task & _ & _ & _ & Hb & _ & [(_ & _ & ->)|(_ & _ & l & ltask & _ & Hl & ->)]).
    + split; [done | by left].
    + split; [done |]. right. eauto.
  - pose proof Hrun as (c & _ & Hb & _)%detachChild_Done. split; [done |].
    unfold TG.detachChild in Hrun.
    apply bind_Done in Hrun as (_ & _ & Hrun).
    destruct (decide (TG.FirstChild r = Some child)).
    + apply bind_Done in Hrun as (? & _ & [= _ <-]). by left.
    + by eapply detachChild_scan_writes.
Qed.

(** X9.  No sequence of [attachChild] and [detachChild] calls, well used or
    not, allocates or frees a task or changes a group membership marker:
    after calls that return, the same tasks exist and each belongs to the
    group it belonged to; the base part of the record (kind and parent) is
    unchanged as well. *)
Theorem calls_keep_tasks_and_membership fuel this calls r h r' h' :
  run fuel this calls r h = Done (r', h') →
  TG.base r' = TG.base r ∧
  dom h' = dom h ∧
  ∀ a, AsyncTask.GroupChildFragment <$> h' !! a
       = AsyncTask.GroupChildFragment <$> h !! a.
Proof.
  intros Hrun.
  assert (H : TG.base r' = TG.base r ∧
              ∀ a, AsyncTask.GroupChildFragment <$> h' !! a
                   = AsyncTask.GroupChildFragment <$> h !! a).
  { revert r h Hrun. induction calls as [|c calls IH]; intros r h Hrun; simpl in Hrun.
    - by injection Hrun as <- <-.
    - apply bind_Done in Hrun as ([r1 h1] & Hexec & Hrun).
      destruct (IH _ _ Hrun) as [Hb Hg].
      apply exec_writes in Hexec as [Hb1 Hw].
      split; [congruence |]. intros a. rewrite Hg.
      destruct Hw as [->|(p & ptask & q & Hp & ->)]; [done |].
      destruct (decide (p = a)) as [->|Hne].
      + by rewrite lookup_insert_eq, Hp.
      + by rewrite lookup_insert_ne. }
  destruct H as [Hb Hg]. split; [done |]. split; [| done].
  apply set_eq. intros a. rewrite !elem_of_dom.
  specialize (Hg a). destruct (h' !! a), (h !! a); simpl in Hg; try done;
    split; intros [? ?]; done.
Qed.

(** ** When attachChild returns *)

(** X10.  [attachChild(child)] returns exactly when [child] is a live task
    marked as a member of this very group and the record is empty or its
    [LastChild] is a live task.  For a live child with no group marker or
    with the marker of another group it stops at an assertion; it never
    fails an assertion for any other reason. *)
Theorem attachChild_returns_iff this child r h :
  ((∃ r' h', TG.attachChild this child r h = Done (r', h')) ↔
     (∃ c task, child = Some c ∧ h !! c = Some task ∧
        AsyncTask.GroupChildFragment task = Some this) ∧
     (TG.FirstChild r = None ∨
      ∃ l ltask, TG.LastChild r = Some l ∧ h !! l = Some ltask)) ∧
  (TG.attachChild this child r h = AssertionFailure ↔
     ∃ c task, child = Some c ∧ h !! c = Some task ∧
       AsyncTask.GroupChildFragment task ≠ Some this).
Proof.
  split.
  - split.
    + intros (r' & h' & Hrun).
      apply attachChild_Done in Hrun
        as (c & task & -> & Hc & Hg & _ & _ & [(Hf & _)|(_ & _ & l & ltask & Hl & Hlt & _)]);
        split; eauto 6.
    + intros [(c & task & -> & Hc & Hg) Hlast].
      rewrite (attachChild_unfold _ _ _ _ _ Hc Hg).
      destruct (TG.FirstChild r) as [f|]; [| eauto].
      destruct Hlast as [|(l & ltask & -> & Hlt)]; [done |].
      simpl. rewrite Hlt. simpl. eauto.
  - unfold TG.attachChild. destruct child as [c|]; simpl;
      [| by split; [| intros (? & ? & [=] & _)]].
    destruct (h !! c) as [task|] eqn:Hc; simpl;
      [| by split; [| intros (? & ? & [= <-] & ? & _); simplify_eq]].
    unfold AsyncTask.hasGroupChildFragment, TG.getGroup.
    destruct (AsyncTask.GroupChildFragment task) as [g|] eqn:Hg; simpl.
    + destruct (decide (g = this)) as [->|Hne].
      * rewrite bool_decide_true by done. simpl. split.
        -- destruct (TG.FirstChild r); [| done].
           destruct (TG.LastChild r) as [l|]; simpl; [| done].
           by destruct (h !! l).
        -- intros (? & ? & [= <-] & ? & Hne). simplify_eq.
      * rewrite bool_decide_false by congruence. simpl.
        split; [| done]. intros _. exists c, task. rewrite Hg.
        repeat split; congruence.
    + split; [| done]. intros _. exists c, task. by rewrite Hg.
Qed.

(** ** children() of a child-task record *)

Lemma rangeBeginning_length h p xs fuel :
  rangeBeginning TG.getNextChildTask fuel h p = Done xs → length xs ≤ fuel.
Proof.
  revert p xs. induction fuel as [|fuel IH]; intros [a|] xs; simpl; try done.
  - intros [= <-]. done.
  - intros (next & _ & (rest & Hr & [= <-])%bind_Done)%bind_Done.
    apply IH in Hr. simpl. lia.
  - intros [= <-]. simpl. lia.
Qed.

Lemma lseg_allocated h p xs q x : lseg h p xs q → x ∈ xs → is_Some (h !! x).
Proof.
  revert p. induction xs as [|y xs IH]; intros p; simpl; [set_solver |].
  intros [-> H] [->|Hin]%elem_of_cons;
    destruct (h !! y) as [task|] eqn:Hy; try done; eauto.
Qed.

(** X11.  [children()] of a [ChildTaskStatusRecord] produces the sequence
    [xs] exactly when the successor slots lead from [FirstChild] through
    [xs] to null (and the budget covers [xs]).  What it produces holds no
    task twice and only live tasks. *)
Theorem ChildTask_children_iff fuel r h xs :
  (ChildTaskStatusRecord.children fuel r h = Done xs ↔
     lseg h (ChildTaskStatusRecord.getFirstChild r) xs None ∧ length xs ≤ fuel) ∧
  (ChildTaskStatusRecord.children fuel r h = Done xs →
     NoDup xs ∧ ∀ x, x ∈ xs → is_Some (h !! x)).
Proof.
  unfold ChildTaskStatusRecord.children.
  change ChildTaskStatusRecord.getNextChildTask with TG.getNextChildTask.
  assert (Hiff : rangeBeginning TG.getNextChildTask fuel h
                   (ChildTaskStatusRecord.getFirstChild r) = Done xs ↔
                 lseg h (ChildTaskStatusRecord.getFirstChild r) xs None ∧
                 length xs ≤ fuel).
  { split.
    - intros H. split; [by eapply rangeBeginning_Done | by eapply rangeBeginning_length].
    - intros [H Hlen]. by apply rangeBeginning_lseg. }
  split; [done |].
  intros [H _]%Hiff. split; [by eapply lseg_NoDup |].
  intros x. by eapply lseg_allocated.
Qed.

(** ** The chain of records *)

Lemma upcast_on_base f x : upcast (on_base f x) = f (upcast x).
Proof. by destruct x. Qed.

Lemma chain_seg_app (σ : records) p xs ys q :
  chain_seg σ p (xs ++ ys) q ↔ ∃ m, chain_seg σ p xs m ∧ chain_seg σ m ys q.
Proof.
  revert p. induction xs as [|x xs IH]; intros p; simpl.
  - split; [eauto | by intros (? & -> & ?)].
  - destruct (σ !! x) as [record|].
    + rewrite IH. split.
      * intros (-> & m & ? & ?). eauto.
      * intros (m & (-> & ?) & ?). eauto.
    + split; [by intros [_ []] | by intros (? & [_ []] & _)].
Qed.

Lemma chain_seg_functional (σ : records) p xs ys :
  chain_seg σ p xs None → chain_seg σ p ys None → xs = ys.
Proof.
  revert p ys. induction xs as [|x xs IH]; intros p [|y ys]; simpl.
  - done.
  - by intros -> [[=] _].
  - by intros [-> _] [=].
  - intros [-> Hx] [[= <-] Hy].
    destruct (σ !! x); [| done]. f_equal. eauto.
Qed.

Lemma chain_NoDup (σ : records) p xs : chain σ p xs → NoDup xs.
Proof.
  unfold chain. revert p. induction xs as [|x xs IH]; intros p H; [constructor |].
  pose proof H as H0. simpl in H. destruct H as [-> H].
  destruct (σ !! x) as [record|] eqn:Hx; [| done].
  constructor; [| eauto].
  intros (l1 & l2 & ->)%list_elem_of_split.
  apply chain_seg_app in H as (m & _ & H2).
  assert (m = Some x) as -> by (by destruct H2).
  pose proof (chain_seg_functional _ _ _ _ H0 H2) as Heq.
  apply (f_equal length) in Heq.
  simpl in Heq. rewrite length_app in Heq. simpl in Heq. lia.
Qed.

Lemma chain_seg_frame (σ : records) a record p xs q :
  a ∉ xs → chain_seg σ p xs q → chain_seg (<[a := record]> σ) p xs q.
Proof.
  revert p. induction xs as [|x xs IH]; intros p Ha; simpl; [done |].
  apply not_elem_of_cons in Ha as [Hne Ha].
  intros [-> H]. split; [done |].
  rewrite lookup_insert_ne by done.
  destruct (σ !! x); [eauto | done].
Qed.

Lemma chain_seg_head (σ : records) p xs : chain_seg σ p xs None → p = head xs.
Proof. destruct xs; simpl; [done | by intros [-> _]]. Qed.

(** X12.  [resetParent] puts a record in front of a chain: for a record
    that is not part of the chain starting at [head], after
    [resetParent(head)] the chain starting at that record is the record
    followed by the old chain, in its old order. *)
Theorem resetParent_prepends (σ : records) new x head xs :
  σ !! new = Some x → chain σ head xs → new ∉ xs →
  ∃ σ', resetParent σ (Some new) head = Done σ' ∧
    chain σ' (Some new) (new :: xs) ∧
    chain σ' head xs.
Proof.
  intros Hx Hc Hni. unfold resetParent. rewrite Hx.
  eexists. split; [done |]. split.
  - split; [done |]. rewrite lookup_insert_eq, upcast_on_base. simpl.
    by apply chain_seg_frame.
  - by apply chain_seg_frame.
Qed.

(** X13.  [spliceParent] removes records from a chain: when the records
    [gone] follow the record [a] in a chain, pointing the parent of [a] at
    what follows them leaves the chain without [gone], everything else in
    its old order. *)
Theorem spliceParent_excises (σ : records) p pre a gone rest :
  chain σ p (pre ++ a :: gone ++ rest) →
  ∃ σ', spliceParent σ (Some a) (head rest) = Done σ' ∧
    chain σ' p (pre ++ a :: rest) ∧
    chain σ' (head rest) rest.
Proof.
  intros Hc. pose proof (chain_NoDup _ _ _ Hc) as Hnd.
  unfold chain in *.
  apply chain_seg_app in Hc as (m & Hpre & Ha).
  pose proof Ha as Ha'. simpl in Ha'. destruct Ha' as [-> Ha'].
  destruct (σ !! a) as [record|] eqn:Hrec; [| done].
  apply chain_seg_app in Ha' as (m & Hgone & Hrest).
  pose proof (chain_seg_head _ _ _ Hrest) as ->.
  apply NoDup_app in Hnd as (_ & Hdisj & Hnd).
  apply NoDup_cons in Hnd as [Hni _].
  assert (a ∉ pre) by (intros Hin; eapply Hdisj; [done | set_solver]).
  assert (a ∉ rest) by set_solver.
  unfold spliceParent. rewrite Hrec. eexists. split; [done |]. split.
  - apply chain_seg_app. exists (Some a). split; [by apply chain_seg_frame |].
    simpl. split; [done |]. rewrite lookup_insert_eq, upcast_on_base. simpl.
    by apply chain_seg_frame.
  - by apply chain_seg_frame.
Qed.

(** ** Misuse *)

Lemma rangeBeginning_self_loop h l ltask n :
  h !! l = Some ltask → AsyncTask.NextChild ltask = Some l →
  rangeBeginning TG.getNextChildTask n h (Some l) = OutOfFuel.
Proof.
  intros Hl Hn. induction n as [|n IH]; [done |].
  simpl. rewrite (getNextChildTask_Some _ _ _ Hl). simpl.
  by rewrite Hn, IH.
Qed.

Lemma rangeBeginning_into_loop h p xs l ltask n :
  lseg h p xs (Some l) →
  h !! l = Some ltask → AsyncTask.NextChild ltask = Some l →
  rangeBeginning TG.getNextChildTask n h p = OutOfFuel.
Proof.
  intros H Hl Hn. revert p n H. induction xs as [|x xs IH]; intros p n; simpl.
  - intros ->. by eapply rangeBeginning_self_loop.
  - intros [-> H]. destruct n as [|n]; [done |].
    destruct (h !! x) as [task|] eqn:Hx; [| done].
    simpl. rewrite (getNextChildTask_Some _ _ _ Hx). simpl.
    by rewrite (IH _ n H).
Qed.

(** X14.  Attaching the child that is already the last one of the list
    passes both assertions and returns, but links that child to itself:
    from then on [children()] never reaches the end of the list, whatever
    the budget. *)
Theorem attaching_last_child_again_loops this r h xs l :
  links r h (xs ++ [l]) →
  (∃ task, h !! l = Some task ∧ AsyncTask.GroupChildFragment task = Some this) →
  ∃ r' h', TG.attachChild this (Some l) r h = Done (r', h') ∧
    (AsyncTask.NextChild <$> h' !! l) = Some (Some l) ∧
    ∀ n, TG.children n r' h' = OutOfFuel.
Proof.
  intros Hl (task & Hc & Hg).
  destruct (attachChild_links this r h l task _ Hc Hg Hl)
    as (r' & h' & Hrun & _ & _ & Hseg & _ & _).
  pose proof Hrun as Hd.
  apply attachChild_Done in Hd
    as (? & ? & [= <-] & _ & _ & _ & _ & [(Hf & _)|(_ & _ & l' & ltask & Hl' & Hlt & ->)]).
  { destruct (links_nil_inv r h _ Hl Hf) as [Hnil _]. by destruct xs. }
  destruct Hl as [_ Hlast]. rewrite last_snoc in Hlast.
  rewrite Hlast in Hl'. injection Hl' as <-.
  exists r', (<[l := AsyncTask.setNextChild (Some l) ltask]> h).
  split; [done |]. rewrite lookup_insert_eq. split; [done |].
  intros n. unfold TG.children, TG.getFirstChild.
  eapply rangeBeginning_into_loop; [exact Hseg | apply lookup_insert_eq | done].
Qed.

Lemma detachChild_scan_no_assertion fuel child prev r h :
  TG.detachChild_scan fuel child prev r h ≠ AssertionFailure.
Proof.
  revert prev. induction fuel as [|fuel IH]; intros [p|]; simpl; try done.
  destruct (h !! p) as [ptask|] eqn:Hp.
  - rewrite (getNextChildTask_Some _ _ _ Hp). simpl.
    destruct (decide (AsyncTask.NextChild ptask = child)); [| apply IH].
    unfold TG.getNextChildTask. destruct child as [c|]; simpl; [| done].
    by destruct (h !! c).
  - assert (Hu : TG.getNextChildTask h (Some p) = Undefined)
      by (unfold TG.getNextChildTask; simpl; by rewrite Hp).
    by rewrite Hu.
Qed.

(** X15.  [detachChild] stops at its assertion exactly when the child is
    null; for a non-null child no assertion can fail, whatever the record
    and the tasks. *)
Theorem detachChild_asserts_iff_null fuel child r h :
  TG.detachChild fuel child r h = AssertionFailure ↔ child = None.
Proof.
  unfold TG.detachChild. destruct child as [c|]; simpl; [| done].
  split; [| done]. intros H. exfalso. revert H.
  destruct (decide (TG.FirstChild r = Some c)).
  - unfold TG.getNextChildTask. simpl. by destruct (h !! c).
  - apply detachChild_scan_no_assertion.
Qed.

(** * More scenarios *)

Section MoreScenarios.
Local Open Scope positive_scope.

Lemma chain_chain3_records : chain chain3_records (Some 3) [3; 2; 1].
Proof. vm_compute. done. Defined.

Lemma links_chain3_spare :
  links (TG.mk group_base (Some 1) (Some 3)) (<[4 := member 10]> chain3) [1; 2; 3].
Proof. split; [| reflexivity]. vm_compute. done. Defined.

Lemma classof_accepts_own_class_scenario :
  TG.classof (upcast (on_base (TaskStatusRecord.resetParent (Some 1))
                        (IsTaskGroup TG.ctor))) = true ∧
  DeadlineStatusRecord.classof
    (upcast (on_base (TaskStatusRecord.resetParent (Some 1))
               (IsTaskGroup TG.ctor))) ≠ true.
Proof.
  destruct (classof_accepts_own_class
              (on_base (TaskStatusRecord.resetParent (Some 1)) (IsTaskGroup TG.ctor)))
    as (_ & Hd & _ & Hg & _).
  { apply constructed_resetParent, constructed_TaskGroup. }
  split.
  - apply Hg. by eexists.
  - intros [? [=]]%Hd.
Defined.

Lemma attach_then_detach_restores_scenario :
  run 3 10 [attach 4; detach 4] (TG.mk group_base (Some 1) (Some 3))
      (<[4 := member 10]> chain3)
    = Done (TG.mk group_base (Some 1) (Some 3), <[4 := member 10]> chain3).
Proof.
  apply (attach_then_detach_restores 3 10 _ _ [1; 2; 3] 4 (member 10)
           links_chain3_spare).
  - set_solver.
  - reflexivity.
  - reflexivity.
  - reflexivity.
  - simpl. lia.
Defined.

Lemma detach_twice_is_detach_once_scenario :
  ∃ r' h',
    run 3 10 [detach 2] (TG.mk group_base (Some 1) (Some 3)) chain3
      = Done (r', h') ∧
    run 3 10 [detach 2; detach 2] (TG.mk group_base (Some 1) (Some 3)) chain3
      = Done (r', h').
Proof.
  apply (detach_twice_is_detach_once 3 10 _ chain3 [1; 2; 3] 2 links_chain3).
  simpl. lia.
Defined.

Lemma detaching_every_child_empties_scenario :
  ∃ h', run 3 10 [detach 3; detach 1; detach 2]
          (TG.mk group_base (Some 1) (Some 3)) chain3
        = Done (TG.mk group_base None None, h') ∧
    ∀ n, TG.children n (TG.mk group_base None None) h' = Done [].
Proof.
  apply (detaching_every_child_empties 3 10 (TG.mk group_base (Some 1) (Some 3))
           chain3 [1; 2; 3] [3; 1; 2] links_chain3).
  - set_solver.
  - simpl. lia.
Defined.

Lemma detachChild_iterations_scenario :
  TG.detachChild 1 (Some 3) (TG.mk group_base (Some 1) (Some 3)) chain3
    = OutOfFuel ∧
  ∃ r' h', TG.detachChild 2 (Some 3) (TG.mk group_base (Some 1) (Some 3)) chain3
           = Done (r', h').
Proof.
  split.
  - apply (proj2 (detachChild_iterations 1 _ chain3 [1; 2] 3 [] links_chain3)).
    simpl. lia.
  - apply (proj1 (detachChild_iterations 2 _ chain3 [1; 2] 3 [] links_chain3)).
    simpl. lia.
Defined.

Lemma calls_keep_tasks_and_membership_scenario :
  dom (<[1 := linked 10 1]> fresh3) = dom fresh3.
Proof.
  refine (proj1 (proj2 (calls_keep_tasks_and_membership 0 10
            [attach 1; attach 1] TG.ctor fresh3
            (TG.mk group_base (Some 1) (Some 1)) (<[1 := linked 10 1]> fresh3) _))).
  reflexivity.
Defined.

Lemma resetParent_prepends_scenario :
  ∃ σ', resetParent chain3_records (Some 3) (Some 1) = Done σ' ∧
    chain σ' (Some 3) [3; 1].
Proof.
  destruct (resetParent_prepends chain3_records 3
              (on_base (TaskStatusRecord.resetParent (Some 2))
                 (IsDeadline (DeadlineStatusRecord.ctor (TaskDeadline.mk 50))))
              (Some 1) [1])
    as (σ' & Hrun & Hc & _).
  - reflexivity.
  - vm_compute. done.
  - set_solver.
  - by exists σ'.
Defined.

Lemma spliceParent_excises_scenario :
  ∃ σ', spliceParent chain3_records (Some 3) (Some 1) = Done σ' ∧
    chain σ' (Some 3) [3; 1].
Proof.
  destruct (spliceParent_excises chain3_records (Some 3) [] 3 [2] [1]
              chain_chain3_records)
    as (σ' & Hrun & Hc & _).
  by exists σ'.
Defined.

Lemma attaching_last_child_again_loops_scenario :
  ∃ r' h',
    TG.attachChild 10 (Some 3) (TG.mk group_base (Some 1) (Some 3)) chain3
      = Done (r', h') ∧
    ∀ n, TG.children n r' h' = OutOfFuel.
Proof.
  destruct (attaching_last_child_again_loops 10
              (TG.mk group_base (Some 1) (Some 3)) chain3 [1; 2] 3 links_chain3)
    as (r' & h' & Hrun & _ & Hloop).
  - exists (member 10). by split.
  - by exists r', h'.
Defined.

End MoreScenarios.
